(** * chrocalc: a genetic search for an arithmetic expression

    A shallow embedding of [chrocalc.py].  Python lists are Rocq lists,
    Python strings are [string]s, Python floats are the kernel's binary64
    floats, exceptions and early returns are explicit outcomes, and the
    module-level random generator is an explicit source that every
    operator threads through. *)

From Stdlib Require Import String Ascii Bool Arith ZArith Lia Floats List.
Import ListNotations.

Local Open Scope string_scope.
Local Open Scope list_scope.

(** ** Python run-time outcomes *)

Inductive exn : Type :=
| ValueError
| IndexError
| KeyError
| TypeError.

(** What a call does: it returns, it raises, or it never comes back
    (the fuel of a [while] loop ran out). *)
Inductive outcome (A : Type) : Type :=
| Return (a : A)
| Raise (e : exn)
| Timeout.

Arguments Return {A} a.
Arguments Raise {A} e.
Arguments Timeout {A}.

Definition obind {A B : Type} (m : outcome A) (k : A -> outcome B) : outcome B :=
  match m with
  | Return a => k a
  | Raise e => Raise e
  | Timeout => Timeout
  end.

Notation "x <- m ;; k" := (obind m (fun x => k))
  (at level 61, m at next level, right associativity).
Notation "' pat <- m ;; k" := (obind m (fun x => match x with pat => k end))
  (at level 61, pat pattern, m at next level, right associativity).

(** The objects a decoded list or the evaluator's working list can hold:
    a string, a float, or the one object [math.nan] (told apart from
    every other float by [is]). *)
Inductive value : Type :=
| VStr (s : string)
| VFloat (f : float)
| VNan.

(** Inside a function body: go on with a value, or leave the function
    (a [return] or a [raise] from within a loop). *)
Inductive ctl (A : Type) : Type :=
| Go (a : A)
| Stop (o : outcome value).

Arguments Go {A} a.
Arguments Stop {A} o.

Definition cbind {A B : Type} (m : ctl A) (k : A -> ctl B) : ctl B :=
  match m with
  | Go a => k a
  | Stop o => Stop o
  end.

Notation "x <~ m ;; k" := (cbind m (fun x => k))
  (at level 61, m at next level, right associativity).

Definition lift {A : Type} (m : outcome A) : ctl A :=
  match m with
  | Return a => Go a
  | Raise e => Stop (Raise e)
  | Timeout => Stop Timeout
  end.

(** ** List primitives with Python's indexing *)

Section PyList.
Context {A : Type}.

(** A possibly negative index, resolved against the length. *)
Definition resolve (l : list A) (i : Z) : option nat :=
  let n := Z.of_nat (length l) in
  let j := if (i <? 0)%Z then (i + n)%Z else i in
  if ((0 <=? j) && (j <? n))%Z then Some (Z.to_nat j) else None.

(** [l[i]] *)
Definition py_index (l : list A) (i : Z) : outcome A :=
  match resolve l i with
  | Some j => match nth_error l j with
              | Some x => Return x
              | None => Raise IndexError
              end
  | None => Raise IndexError
  end.

Fixpoint set_nth (j : nat) (x : A) (l : list A) : list A :=
  match l, j with
  | [], _ => []
  | _ :: t, O => x :: t
  | h :: t, S j' => h :: set_nth j' x t
  end.

Fixpoint del_nth (j : nat) (l : list A) : list A :=
  match l, j with
  | [], _ => []
  | _ :: t, O => t
  | h :: t, S j' => h :: del_nth j' t
  end.

(** [l[i] = x] *)
Definition py_setitem (l : list A) (i : Z) (x : A) : outcome (list A) :=
  match resolve l i with
  | Some j => Return (set_nth j x l)
  | None => Raise IndexError
  end.

(** [del l[i]] *)
Definition py_delitem (l : list A) (i : Z) : outcome (list A) :=
  match resolve l i with
  | Some j => Return (del_nth j l)
  | None => Raise IndexError
  end.
End PyList.

(** ** The symbol table *)

(** The dict keeps its insertion order, which [list(GREYCODE.keys())]
    exposes; it is an association list. *)
Definition GREYCODE : list (string * string) :=
  [ ("0000", "0"); ("0001", "1"); ("0010", "2"); ("0011", "3");
    ("0100", "4"); ("0101", "5"); ("0110", "6"); ("0111", "7");
    ("1000", "8"); ("1001", "9"); ("1010", "+"); ("1011", "-");
    ("1100", "*"); ("1101", "/") ].

Definition keys (d : list (string * string)) : list string := map fst d.

Fixpoint lookup (d : list (string * string)) (k : string) : option string :=
  match d with
  | [] => None
  | (k', v) :: d' => if String.eqb k' k then Some v else lookup d' k
  end.

(** [d[k]] *)
Definition getitem (d : list (string * string)) (k : string) : outcome string :=
  match lookup d k with
  | Some v => Return v
  | None => Raise KeyError
  end.

Definition is_digit_char (c : ascii) : bool :=
  ((48 <=? nat_of_ascii c) && (nat_of_ascii c <=? 57))%nat.

(** [s.isdigit()] on ASCII text: non-empty and all decimal digits. *)
Definition isdigit (s : string) : bool :=
  match s with
  | EmptyString => false
  | _ => forallb is_digit_char (list_ascii_of_string s)
  end.

Definition valid_code (g : string) : bool :=
  existsb (String.eqb g) (keys GREYCODE).

(** ** decode *)

Definition chromosome : Type := list string.

Fixpoint decode_loop (genes : list string) (output : list string)
    (now_operator : bool) : outcome (list string) :=
  match genes with
  | [] => Return output
  | g :: genes' =>
      decoded_gene <- getitem GREYCODE g ;;
      if now_operator && negb (isdigit decoded_gene) then
        decode_loop genes' (output ++ [decoded_gene]) false
      else if negb now_operator && isdigit decoded_gene then
        decode_loop genes' (output ++ [decoded_gene]) true
      else decode_loop genes' output now_operator
  end.

Definition decode (c : chromosome) : outcome (list string) :=
  output <- decode_loop c [] false ;;
  match output with
  | [] => Return output
  | _ :: _ =>
      if negb (isdigit (last output "")) then Return (removelast output)
      else Return output
  end.

(** ** _evaluate and fitness *)

(** [float(s)] for the symbols of the table: a decimal digit converts to
    its value and every other symbol raises [ValueError].  Numerals of
    several characters are not symbols of the table and are not modelled. *)
Definition float_of_string (s : string) : option float :=
  if s =? "0" then Some 0%float else
  if s =? "1" then Some 1%float else
  if s =? "2" then Some 2%float else
  if s =? "3" then Some 3%float else
  if s =? "4" then Some 4%float else
  if s =? "5" then Some 5%float else
  if s =? "6" then Some 6%float else
  if s =? "7" then Some 7%float else
  if s =? "8" then Some 8%float else
  if s =? "9" then Some 9%float else None.

(** The number [float(v)] denotes. *)
Definition to_float (v : value) : outcome float :=
  match v with
  | VStr s => match float_of_string s with
              | Some f => Return f
              | None => Raise ValueError
              end
  | VFloat f => Return f
  | VNan => Return nan
  end.

(** The object [float(v)] is: a float is handed back as it is, so
    [float(math.nan) is math.nan]. *)
Definition py_float (v : value) : outcome value :=
  match v with
  | VNan => Return VNan
  | _ => f <- to_float v ;; Return (VFloat f)
  end.

(** [x == s] for a string literal [s]. *)
Definition eq_str (x : value) (s : string) : bool :=
  match x with
  | VStr t => String.eqb t s
  | _ => false
  end.

(** [s in output] for a string literal [s]. *)
Definition contains (s : string) (output : list value) : bool :=
  existsb (fun x => eq_str x s) output.

Section Tier.
(** One precedence tier: its two operator symbols, their operations,
    and whether the second one checks its divisor. *)
Variables (op1 op2 : string) (f1 f2 : float -> float -> float)
          (guard : bool).

(** [x] is one of the tier's two operator symbols. *)
Definition fires (x : value) : bool := eq_str x op1 || eq_str x op2.

(** The body of the [for] loop at index [i] with element [x]; [None]
    is the [continue] branch, [Some output'] the [break] branch. *)
Definition chunk (output : list value) (i : nat) (x : value)
    : ctl (option (list value)) :=
  let i := Z.of_nat i in
  total <~ (if eq_str x op1 then
              l <~ lift (v <- py_index output (i - 1) ;; to_float v) ;;
              r <~ lift (v <- py_index output (i + 1) ;; to_float v) ;;
              Go (Some (f1 l r))
            else Go None) ;;
  total <~ (if eq_str x op2 then
              z <~ (if guard then
                      r <~ lift (v <- py_index output (i + 1) ;; to_float v) ;;
                      Go (r =? 0)%float
                    else Go false) ;;
              if z : bool then Stop (Return VNan) else
              l <~ lift (v <- py_index output (i - 1) ;; to_float v) ;;
              r <~ lift (v <- py_index output (i + 1) ;; to_float v) ;;
              Go (Some (f2 l r))
            else Go total) ;;
  match total with
  | Some t =>
      output <~ lift (py_setitem output i (VFloat t)) ;;
      output <~ lift (py_delitem output (i - 1)) ;;
      output <~ lift (py_delitem output i) ;;
      Go (Some output)
  | None => Go None
  end.

(** [for i, x in enumerate(output)], entered at index [i] with [rest]
    still to visit; yields the list as the loop leaves it. *)
Fixpoint for_loop (output : list value) (i : nat) (rest : list value)
    : ctl (list value) :=
  match rest with
  | [] => Go output
  | x :: rest' =>
      r <~ chunk output i x ;;
      match r with
      | Some output' => Go output'
      | None => for_loop output (S i) rest'
      end
  end.

Fixpoint while_loop (fuel : nat) (output : list value) : ctl (list value) :=
  match fuel with
  | O => Stop Timeout
  | S fuel' =>
      if contains op1 output || contains op2 output then
        output' <~ for_loop output 0 output ;;
        while_loop fuel' output'
      else Go output
  end.
End Tier.

Definition mul_tier := while_loop "*" "/" PrimFloat.mul PrimFloat.div true.
Definition add_tier := while_loop "+" "-" PrimFloat.add PrimFloat.sub false.

Definition finish (c : ctl (outcome value)) : outcome value :=
  match c with
  | Go o => o
  | Stop o => o
  end.

(** Every pass of a [while] loop that comes back has removed two
    elements, so the length of the list is fuel enough. *)
Definition _evaluate (decoded : list value) : outcome value :=
  let output := decoded in
  finish (
    output <~ mul_tier (S (length output)) output ;;
    output <~ add_tier (S (length output)) output ;;
    if (length output =? 1)%nat then
      Go (v <- py_index output 0 ;; py_float v)
    else Go (py_index output 0)).

Definition is_math_nan (v : value) : bool :=
  match v with
  | VNan => true
  | _ => false
  end.

(** [target] is the float the subtraction sees. *)
Definition fitness (decoded : list value) (target : float) : outcome value :=
  if existsb is_math_nan decoded then Return VNan else
  result <- _evaluate decoded ;;
  match result with
  | VNan => Return VNan
  | VFloat r => Return (VFloat (abs (target - r)))
  | VStr _ => Raise TypeError
  end.

Definition tokens (l : list string) : list value := map VStr l.

(** ** The random source *)

(** The module-level generator of [random]: every call consumes the next
    cell of the source.  [unit_draw] is what [random.random()] reads (a
    float of [[0, 1)]), [index_draw] is what the integer draws read. *)
Record source : Type := {
  unit_draw : nat -> float;
  index_draw : nat -> nat;
  cursor : nat
}.

Definition advance (g : source) : source :=
  {| unit_draw := unit_draw g; index_draw := index_draw g;
     cursor := S (cursor g) |}.

(** [random.random()] *)
Definition random (g : source) : float * source :=
  (unit_draw g (cursor g), advance g).

(** [random._randbelow(n)] for a positive [n]. *)
Definition randbelow (n : nat) (g : source) : nat * source :=
  (index_draw g (cursor g) mod n, advance g).

(** [random.uniform(a, b)] *)
Definition uniform (a b : float) (g : source) : float * source :=
  let (u, g') := random g in
  ((a + (b - a) * u)%float, g').

(** [random.randint(a, b)] *)
Definition randint (a b : Z) (g : source) : outcome (Z * source) :=
  let width := (b + 1 - a)%Z in
  if (0 <? width)%Z then
    let (k, g') := randbelow (Z.to_nat width) g in
    Return ((a + Z.of_nat k)%Z, g')
  else Raise ValueError.

(** [random.choice(seq)] *)
Definition choice (seq : list string) (g : source) : outcome (string * source) :=
  match seq with
  | [] => Raise IndexError
  | _ :: _ =>
      let (k, g') := randbelow (length seq) g in
      x <- py_index seq (Z.of_nat k) ;;
      Return (x, g')
  end.

(** [random.sample(population, 1)]: one draw decides the one element. *)
Definition sample1 (population : list string) (g : source)
    : outcome (list string * source) :=
  match population with
  | [] => Raise ValueError
  | _ :: _ =>
      let (j, g') := randbelow (length population) g in
      x <- py_index population (Z.of_nat j) ;;
      Return ([x], g')
  end.

(** The draws of [random.random()] lie in [[0, 1)]. *)
Definition unit_range (g : source) : Prop :=
  forall k, (0 <=? unit_draw g k)%float = true /\ (unit_draw g k <? 1)%float = true.

(** The key an index draw picks from [list(GREYCODE.keys())]. *)
Definition code_at (k : nat) : string :=
  nth (k mod length (keys GREYCODE)) (keys GREYCODE) "".

(** The source after [n] draws. *)
Definition advance_by (n : nat) (g : source) : source := Nat.iter n advance g.

(** ** generate_chromosome *)

Fixpoint generate_loop (n : nat) (output : list string) (g : source)
    : outcome (chromosome * source) :=
  match n with
  | O => Return (output, g)
  | S n' =>
      '(x, g') <- choice (keys GREYCODE) g ;;
      generate_loop n' (output ++ [x]) g'
  end.

Definition generate_chromosome (length : Z) (g : source)
    : outcome (chromosome * source) :=
  if (length <? 3)%Z then Raise ValueError
  else generate_loop (Z.to_nat length) [] g.

(** ** roulette *)

Definition pool : Type := list (chromosome * float).

(** How the builtin [sum] adds floats depends on the interpreter: up to
    CPython 3.11 it adds them from the left, one rounding per addition;
    from CPython 3.12 on it keeps, next to that total, the rounding
    errors of the additions (Neumaier's compensation) and adds them in
    at the end. *)
Inductive summation : Type :=
| Plain
| Compensated.

(** One float taken in by the compensated loop: [f_result] is the total
    so far, [c] the compensation. *)
Definition compensate (acc : float * float) (x : float) : float * float :=
  let (f_result, c) := acc in
  let t := (f_result + x)%float in
  let c := if (abs x <=? abs f_result)%float
           then (c + ((f_result - t) + x))%float
           else (c + ((x - t) + f_result))%float in
  (t, c).

(** The end of the compensated loop: the compensation is added when it
    is neither zero nor an infinity or a NaN. *)
Definition compensated_end (acc : float * float) : float :=
  let (f_result, c) := acc in
  if negb (c =? 0)%float && is_finite c then (f_result + c)%float
  else f_result.

(** [sum(fs)], starting at the integer zero: the first float is added to
    it as it is, both ways. *)
Definition sum (py : summation) (fs : list float) : float :=
  match py with
  | Plain => fold_left PrimFloat.add fs 0%float
  | Compensated =>
      match fs with
      | [] => 0%float
      | x :: rest =>
          compensated_end (fold_left compensate rest ((0 + x)%float, 0%float))
      end
  end.

(** The walk over the pool; [None] is Python's [None], returned when the
    loop ends without a hit. *)
Fixpoint roulette_loop (selection spinner : float) (old_pool : pool)
    : option chromosome :=
  match old_pool with
  | [] => None
  | (c, f) :: rest =>
      let spinner := (spinner + f)%float in
      if (selection <=? spinner)%float then Some c
      else roulette_loop selection spinner rest
  end.

Definition roulette (py : summation) (old_pool : pool) (g : source)
    : option chromosome * source :=
  let total := sum py (map snd old_pool) in
  let (selection, g') := uniform 0 total g in
  (roulette_loop selection 0 old_pool, g').

(** The cumulative total of the pool up to and with entry [k]: what
    [spinner] holds after [k + 1] passes of the walk. *)
Definition running (fs : list float) (k : nat) : float :=
  fold_left PrimFloat.add (firstn (S k) fs) 0%float.

(** ** cross and mutate, on list values *)

(** The slice point is at least 1, so both slices are plain prefixes and
    suffixes. *)
Definition cross (c1 c2 : chromosome) (rate : float) (g : source)
    : outcome (chromosome * source) :=
  let output := c1 in
  let max_slice_point := (Z.of_nat (length (combine c1 c2)) - 1)%Z in
  let (u, g1) := random g in
  if (u <=? rate)%float then
    '(slice_point, g2) <- randint 1 max_slice_point g1 ;;
    Return (firstn (Z.to_nat slice_point) c1 ++ skipn (Z.to_nat slice_point) c2, g2)
  else Return (output, g1).

(** [n] indices are still to visit, the next one is [i]. *)
Fixpoint mutate_loop (rate : float) (n i : nat) (output : list string)
    (g : source) : outcome (chromosome * source) :=
  match n with
  | O => Return (output, g)
  | S n' =>
      let (u, g1) := random g in
      if (u <=? rate)%float then
        '(picked, g2) <- sample1 (keys GREYCODE) g1 ;;
        x <- py_index picked 0 ;;
        output' <- py_setitem output (Z.of_nat i) x ;;
        mutate_loop rate n' (S i) output' g2
      else mutate_loop rate n' (S i) output g1
  end.

Definition mutate (c : chromosome) (rate : float) (g : source)
    : outcome (chromosome * source) :=
  let output := c in
  mutate_loop rate (length output) 0 output g.

(** What a call returned, without the source it left behind. *)
Definition returned {A : Type} (o : outcome (A * source)) : outcome A :=
  '(a, _) <- o ;; Return a.

(** ** cross and mutate, on list objects *)

(** Python lists are objects: a chromosome handed to an operator is a
    reference, and [c[:]], a slice or [+] makes a new object.  The store
    holds every list object by address; a computation reads and writes
    the store and the random source, and both survive an exception. *)
Module Store.

Definition ref : Type := nat.
Definition heap : Type := list (list string).

Definition deref (h : heap) (r : ref) : list string := nth r h [].

Definition M (A : Type) : Type :=
  heap -> source -> outcome A * heap * source.

Definition ret {A : Type} (a : A) : M A := fun h g => (Return a, h, g).

Definition bind {A B : Type} (m : M A) (k : A -> M B) : M B :=
  fun h g =>
    match m h g with
    | (Return a, h', g') => k a h' g'
    | (Raise e, h', g') => (Raise e, h', g')
    | (Timeout, h', g') => (Timeout, h', g')
    end.

Notation "x <<- m ;; k" := (bind m (fun x => k))
  (at level 61, m at next level, right associativity).

(** A new list object, at an address not in use. *)
Definition new (l : list string) : M ref :=
  fun h g => (Return (length h), h ++ [l], g).

Definition read (r : ref) : M (list string) :=
  fun h g => (Return (deref h r), h, g).

Definition write (r : ref) (l : list string) : M unit :=
  fun h g => (Return tt, set_nth r l h, g).

(** A call into [random] that cannot raise, and one that can. *)
Definition draw {A : Type} (f : source -> A * source) : M A :=
  fun h g => let (a, g') := f g in (Return a, h, g').

Definition draw_or_raise {A : Type} (f : source -> outcome (A * source))
    : M A :=
  fun h g =>
    match f g with
    | Return (a, g') => (Return a, h, g')
    | Raise e => (Raise e, h, g)
    | Timeout => (Timeout, h, g)
    end.

Definition try {A : Type} (o : outcome A) : M A := fun h g => (o, h, g).

(** [c[:]] *)
Definition copy (c : ref) : M ref := l <<- read c ;; new l.

Definition cross (c1 c2 : ref) (rate : float) : M ref :=
  output <<- copy c1 ;;
  l1 <<- read c1 ;;
  l2 <<- read c2 ;;
  let max_slice_point := (Z.of_nat (length (combine l1 l2)) - 1)%Z in
  u <<- draw random ;;
  if (u <=? rate)%float then
    slice_point <<- draw_or_raise (randint 1 max_slice_point) ;;
    left <<- (l <<- read c1 ;; new (firstn (Z.to_nat slice_point) l)) ;;
    right <<- (l <<- read c2 ;; new (skipn (Z.to_nat slice_point) l)) ;;
    a <<- read left ;;
    b <<- read right ;;
    new (a ++ b)
  else ret output.

Fixpoint mutate_loop (rate : float) (n i : nat) (output : ref) : M unit :=
  match n with
  | O => ret tt
  | S n' =>
      u <<- draw random ;;
      if (u <=? rate)%float then
        picked <<- draw_or_raise (sample1 (keys GREYCODE)) ;;
        x <<- try (py_index picked 0) ;;
        l <<- read output ;;
        l' <<- try (py_setitem l (Z.of_nat i) x) ;;
        _ <<- write output l' ;;
        mutate_loop rate n' (S i) output
      else mutate_loop rate n' (S i) output
  end.

Definition mutate (c : ref) (rate : float) : M ref :=
  output <<- copy c ;;
  l <<- read output ;;
  _ <<- mutate_loop rate (length l) 0 output ;;
  ret output.

(** Every object of [h] is in [h'] as it was. *)
Definition preserved (h h' : heap) : Prop :=
  length h <= length h'
  /\ forall a, a < length h -> deref h' a = deref h a.

End Store.

(** ** The chromosomes the program can hold

    A chromosome comes from the factory, or from an operator applied to
    chromosomes that the program already held. *)
Inductive produced : chromosome -> Prop :=
| produced_generate length g c g' :
    generate_chromosome length g = Return (c, g') -> produced c
| produced_cross c1 c2 rate g c g' :
    produced c1 -> produced c2 ->
    cross c1 c2 rate g = Return (c, g') -> produced c
| produced_mutate c0 rate g c g' :
    produced c0 ->
    mutate c0 rate g = Return (c, g') -> produced c.

(** ** Well-formed token sequences *)

Definition is_operator (s : string) : bool :=
  (s =? "+") || (s =? "-") || (s =? "*") || (s =? "/").

Definition is_digit (s : string) : bool :=
  match float_of_string s with
  | Some _ => true
  | None => false
  end.

(** digit, operator, digit, ..., digit *)
Fixpoint alternating (l : list string) : bool :=
  match l with
  | [] => false
  | [d] => is_digit d
  | d :: o :: rest => is_digit d && is_operator o && alternating rest
  end.

Inductive binop : Type := Add | Sub | Mul | Div.

Definition symbol (o : binop) : string :=
  match o with
  | Add => "+"
  | Sub => "-"
  | Mul => "*"
  | Div => "/"
  end.

Definition binop_of_string (s : string) : option binop :=
  if s =? "+" then Some Add else
  if s =? "-" then Some Sub else
  if s =? "*" then Some Mul else
  if s =? "/" then Some Div else None.

(** The operator and operand pairs after the first operand. *)
Fixpoint operations (l : list string) : option (list (binop * float)) :=
  match l with
  | [] => Some []
  | o :: d :: rest =>
      match binop_of_string o, float_of_string d, operations rest with
      | Some b, Some f, Some ops => Some ((b, f) :: ops)
      | _, _, _ => None
      end
  | [_] => None
  end.

(** A well-formed sequence read as its first operand and what follows. *)
Definition parse (l : list string) : option (float * list (binop * float)) :=
  match l with
  | [] => None
  | d :: rest =>
      match float_of_string d, operations rest with
      | Some f, Some ops => Some (f, ops)
      | _, _ => None
      end
  end.

(** ** The evaluation order in the specification's words

    First every multiplicative operator, from the left, folded into the
    operand on its left (a division by zero makes the whole result
    invalid); then every additive operator, from the left, over what is
    left. *)

Definition additive (o : binop) : bool :=
  match o with
  | Add | Sub => true
  | Mul | Div => false
  end.

Definition apply_op (o : binop) (a b : float) : float :=
  match o with
  | Add => (a + b)%float
  | Sub => (a - b)%float
  | Mul => (a * b)%float
  | Div => (a / b)%float
  end.

Definition divides_by_zero (o : binop) (d : float) : bool :=
  match o with
  | Div => (d =? 0)%float
  | _ => false
  end.

(** The first tier: [acc] is the operand that the multiplicative
    operators met so far have been folded into; an additive operator
    closes it and opens the next one. *)
Fixpoint spec_multiplicative (acc : float) (ops : list (binop * float))
    : option (float * list (binop * float)) :=
  match ops with
  | [] => Some (acc, [])
  | (o, d) :: ops' =>
      if additive o then
        match spec_multiplicative d ops' with
        | Some (t, ts) => Some (acc, (o, t) :: ts)
        | None => None
        end
      else if divides_by_zero o d then None
      else spec_multiplicative (apply_op o acc d) ops'
  end.

(** The second tier: a fold from the left. *)
Definition spec_additive (acc : float) (ops : list (binop * float)) : float :=
  fold_left (fun a p => apply_op (fst p) a (snd p)) ops acc.

(** [None] is the invalid result. *)
Definition spec_evaluate (first : float) (ops : list (binop * float))
    : option float :=
  match spec_multiplicative first ops with
  | Some (t, ts) => Some (spec_additive t ts)
  | None => None
  end.

Definition result_value (r : option float) : value :=
  match r with
  | Some f => VFloat f
  | None => VNan
  end.

(** ** The working list of the evaluator against the parsed sequence *)

(** The number an operand of the working list stands for: a digit symbol
    not yet touched, or the float of a chunk already computed. *)
Definition denotes (v : value) (f : float) : Prop :=
  match v with
  | VStr s => float_of_string s = Some f
  | VFloat g => g = f
  | VNan => False
  end.

Definition agrees (p : string * value) (q : binop * float) : Prop :=
  fst p = symbol (fst q) /\ denotes (snd p) (snd q).

(** Operator and operand pairs laid out as list elements. *)
Definition flat (ops : list (string * value)) : list value :=
  flat_map (fun p => [VStr (fst p); snd p]) ops.

(** A product of 324 nines, times zero: the product overflows to
    infinity before the last factor is reached. *)
Definition overflow_tokens : list string :=
  "9" :: concat (repeat ["*"; "9"] 323) ++ ["*"; "0"].

(** What the scan of [decode] has built so far: after a digit the output
    is a complete alternating sequence, after an operator (or at the
    start) it is empty or a complete sequence with one operator more. *)
Definition decode_shape (output : list string) (now_operator : bool) : Prop :=
  if now_operator then alternating output = true
  else output = []
       \/ exists body op,
            output = body ++ [op]
            /\ alternating body = true /\ is_operator op = true.

(** ** The generational loop of the script

    The body under [if __name__ == "__main__"], without what it prints:
    the loop yields the answer that the script prints at its end. *)

(** What the script fixes before it starts. *)
Record settings : Type := {
  target : float;
  chromosome_length : Z;
  new_blood_count : nat;
  preserve_count : nat;
  crossovers_count : nat
}.

Definition script_settings : settings :=
  {| target := 1111; chromosome_length := 50; new_blood_count := 10;
     preserve_count := 8; crossovers_count := 8 |}.

(** The default rates of [cross] and [mutate], 0.7 and 0.007, as the
    binary64 values these literals denote. *)
Definition cross_rate : float := 0x1.6666666666666p-1.
Definition mutate_rate : float := 0x1.cac083126e979p-8.

(** The steps that each of the three filling loops takes with a
    candidate: decode it, drop it when the decoding is empty, score it,
    drop it when the score is [math.nan]; [None] is the [continue].
    [fitness] returns no string, so its third case is never met. *)
Definition score (target : float) (c : chromosome)
    : outcome (option (chromosome * float)) :=
  dc <- decode c ;;
  match dc with
  | [] => Return None
  | _ :: _ =>
      f <- fitness (tokens dc) target ;;
      match f with
      | VNan => Return None
      | VFloat x => Return (Some (c, x))
      | VStr _ => Raise TypeError
      end
  end.

(** [new_pool.append(member)] when there is one. *)
Definition append_member (new_pool : pool) (m : option (chromosome * float))
    : pool :=
  match m with
  | Some member => new_pool ++ [member]
  | None => new_pool
  end.

Section Generation.
Variable py : summation.
Variable s : settings.

(** The loop that adds new blood; [fuel] bounds its passes. *)
Fixpoint new_blood (fuel : nat) (new_pool : pool) (g : source)
    : outcome (pool * source) :=
  match fuel with
  | O => Timeout
  | S fuel' =>
      if (length new_pool <? new_blood_count s)%nat then
        '(c, g) <- generate_chromosome (chromosome_length s) g ;;
        m <- score (target s) c ;;
        new_blood fuel' (append_member new_pool m) g
      else Return (new_pool, g)
  end.

(** The loop that adds crossover chromosomes.  [roulette] hands back
    [None] when its walk ends without a hit, and [cross] then raises
    [TypeError] on [c1[:]] or on [zip(c1, c2)]. *)
Fixpoint crossovers (fuel : nat) (old_pool new_pool : pool) (g : source)
    : outcome (pool * source) :=
  match fuel with
  | O => Timeout
  | S fuel' =>
      if (length new_pool <? new_blood_count s + crossovers_count s)%nat then
        let (c1, g) := roulette py old_pool g in
        let (c2, g) := roulette py old_pool g in
        match c1, c2 with
        | Some c1, Some c2 =>
            '(crossed, g) <- cross c1 c2 cross_rate g ;;
            m <- score (target s) crossed ;;
            crossovers fuel' old_pool (append_member new_pool m) g
        | _, _ => Raise TypeError
        end
      else Return (new_pool, g)
  end.

(** The loop that preserves and mutates; [mutate(None)] raises
    [TypeError] on [c[:]]. *)
Fixpoint survivors (fuel : nat) (old_pool new_pool : pool) (g : source)
    : outcome (pool * source) :=
  match fuel with
  | O => Timeout
  | S fuel' =>
      if (length new_pool
          <? new_blood_count s + crossovers_count s + preserve_count s)%nat
      then
        let (c, g) := roulette py old_pool g in
        match c with
        | Some c =>
            '(m, g) <- mutate c mutate_rate g ;;
            member <- score (target s) m ;;
            survivors fuel' old_pool (append_member new_pool member) g
        | None => Raise TypeError
        end
      else Return (new_pool, g)
  end.

(** The check for an answer: the decoding of the first member whose
    fitness equals zero. *)
Fixpoint find_answer (new_pool : pool) : outcome (option (list string)) :=
  match new_pool with
  | [] => Return None
  | (c, f) :: rest =>
      if (f =? 0)%float then dc <- decode c ;; Return (Some dc)
      else find_answer rest
  end.

(** One pass of the outer loop. *)
Definition generation (fuel : nat) (old_pool : pool) (g : source)
    : outcome (option (list string) * pool * source) :=
  '(new_pool, g) <- new_blood fuel [] g ;;
  let old_pool := match old_pool with
                  | [] => new_pool
                  | _ :: _ => old_pool
                  end in
  '(new_pool, g) <- crossovers fuel old_pool new_pool g ;;
  '(new_pool, g) <- survivors fuel old_pool new_pool g ;;
  answer <- find_answer new_pool ;;
  Return (answer, new_pool, g).

(** [while not answer]: an empty answer is as good as none.  The outer
    loop runs at most [generations] times, each inner loop at most
    [fuel] times. *)
Fixpoint evolve (generations fuel : nat) (old_pool : pool) (g : source)
    : outcome (list string * source) :=
  match generations with
  | O => Timeout
  | S generations' =>
      '(answer, new_pool, g) <- generation fuel old_pool g ;;
      match answer with
      | Some (t :: ts) => Return (t :: ts, g)
      | _ => evolve generations' fuel new_pool g
      end
  end.
End Generation.

(** What the loops keep true of every member of a pool. *)
Definition member_ok (target : float) (m : chromosome * float) : Prop :=
  forallb valid_code (fst m) = true
  /\ exists dc, decode (fst m) = Return dc
                /\ alternating dc = true
                /\ fitness (tokens dc) target = Return (VFloat (snd m)).

(** ** Readings of the table used to state what [decode] does *)

(** The gene is a key whose symbol is a digit. *)
Definition digit_code (g : string) : bool :=
  match lookup GREYCODE g with
  | Some s => isdigit s
  | None => false
  end.

(** The gene is a key whose symbol is an operator. *)
Definition operator_code (g : string) : bool :=
  match lookup GREYCODE g with
  | Some s => negb (isdigit s)
  | None => false
  end.

(** The last two lines of [decode]. *)
Definition decode_finish (output : list string) : outcome (list string) :=
  match output with
  | [] => Return output
  | _ :: _ =>
      if negb (isdigit (last output "")) then Return (removelast output)
      else Return output
  end.

(** A chromosome whose decoding is [overflow_tokens]. *)
Definition overflow_chromosome : chromosome :=
  "1001" :: concat (repeat ["1100"; "1001"] 323) ++ ["1100"; "0000"].

(** ** Concrete runs *)

Definition constant_source (u : float) (k : nat) : source :=
  {| unit_draw := fun _ => u; index_draw := fun _ => k; cursor := 0 |}.

(** A chromosome of the script's length that decodes to [1 / 7]: the
    genes after the third are digits where an operator is due, and are
    skipped. *)
Definition seventh_chromosome : chromosome :=
  ["0001"; "1101"; "0111"] ++ repeat "0111" 47.

(** A pool of the script's size, every member [seventh_chromosome] with
    its fitness against the script's target. *)
Definition seventh_pool : pool :=
  repeat (seventh_chromosome, abs (1111 - 1 / 7)%float) 26.

(** The source whose draws of [random.random()] are all the largest
    float below 1, [1 - 2^-53]. *)
Definition top_source : source := constant_source 0x1.fffffffffffffp-1 0.

Example evaluate_14 :
  _evaluate (tokens ["2"; "+"; "3"; "*"; "4"]) = Return (VFloat 14).
Proof. vm_compute. reflexivity. Qed.

Example decode_run :
  decode ["1010"; "0010"; "0111"; "1010"; "1100"; "0011"; "1100"]
  = Return ["2"; "+"; "3"].
Proof. vm_compute. reflexivity. Qed.

Example fitness_5_5 : fitness (tokens ["5"]) 5 = Return (VFloat 0).
Proof. vm_compute. reflexivity. Qed.

Example fitness_5_8 : fitness (tokens ["5"]) 8 = Return (VFloat 3).
Proof. vm_compute. reflexivity. Qed.

Example evaluate_div0 : _evaluate (tokens ["1"; "/"; "0"]) = Return VNan.
Proof. vm_compute. reflexivity. Qed.

Example evaluate_left_assoc :
  _evaluate (tokens ["8"; "-"; "3"; "-"; "2"; "*"; "2"; "/"; "8"])
  = Return (VFloat 4.5).
Proof. vm_compute. reflexivity. Qed.

Example generate_run :
  returned (generate_chromosome 3 (constant_source 0.5 12))
  = Return ["1100"; "1100"; "1100"].
Proof. vm_compute. reflexivity. Qed.

Example cross_run :
  returned (cross ["0000"; "0001"; "0010"] ["1111"; "1110"; "1101"] 0.75
              (constant_source 0.5 1))
  = Return ["0000"; "0001"; "1101"].
Proof. vm_compute. reflexivity. Qed.

(** ** Python indexing on a list split around the index *)

Section PyListFacts.
Context {A : Type}.
Implicit Types (l pre post : list A) (x y : A).

Lemma resolve_nat l (j : nat) :
  j < length l -> resolve l (Z.of_nat j) = Some j.
Proof.
  intros Hj. unfold resolve.
  destruct (Z.ltb_spec (Z.of_nat j) 0); [lia|].
  destruct (Z.leb_spec 0 (Z.of_nat j)); [|lia].
  destruct (Z.ltb_spec (Z.of_nat j) (Z.of_nat (length l))); [|lia].
  cbn. now rewrite Nat2Z.id.
Qed.

Lemma py_index_middle pre x post :
  py_index (pre ++ x :: post) (Z.of_nat (length pre)) = Return x.
Proof.
  unfold py_index. rewrite resolve_nat.
  - rewrite nth_error_app2, Nat.sub_diag by lia. reflexivity.
  - rewrite length_app. cbn. lia.
Qed.

Lemma set_nth_middle pre x y post :
  set_nth (length pre) y (pre ++ x :: post) = pre ++ y :: post.
Proof. induction pre as [|h pre IH]; cbn; [reflexivity | now rewrite IH]. Qed.

Lemma del_nth_middle pre x post :
  del_nth (length pre) (pre ++ x :: post) = pre ++ post.
Proof. induction pre as [|h pre IH]; cbn; [reflexivity | now rewrite IH]. Qed.

Lemma py_setitem_middle pre x y post :
  py_setitem (pre ++ x :: post) (Z.of_nat (length pre)) y
  = Return (pre ++ y :: post).
Proof.
  unfold py_setitem. rewrite resolve_nat.
  - now rewrite set_nth_middle.
  - rewrite length_app. cbn. lia.
Qed.

Lemma py_delitem_middle pre x post :
  py_delitem (pre ++ x :: post) (Z.of_nat (length pre)) = Return (pre ++ post).
Proof.
  unfold py_delitem. rewrite resolve_nat.
  - now rewrite del_nth_middle.
  - rewrite length_app. cbn. lia.
Qed.

Lemma length_set_nth j y l : length (set_nth j y l) = length l.
Proof.
  revert j. induction l as [|h l IH]; intros [|j]; cbn; auto.
Qed.

Lemma length_del_nth j l : j < length l -> S (length (del_nth j l)) = length l.
Proof.
  revert j. induction l as [|h l IH]; intros [|j] Hj; cbn in *; try lia.
  rewrite IH by lia. reflexivity.
Qed.

Lemma resolve_bound l i j : resolve l i = Some j -> j < length l.
Proof.
  unfold resolve.
  destruct (i <? 0)%Z;
    match goal with
    | |- context [(?a && ?b)%bool] => destruct a eqn:Ha; destruct b eqn:Hb
    end; cbn; try discriminate; intros [= <-]; lia.
Qed.
End PyListFacts.

(** ** The three-token window around an operator *)

Lemma window_left (pre : list value) l o r post :
  py_index (pre ++ l :: o :: r :: post) (Z.of_nat (S (length pre)) - 1)
  = Return l.
Proof.
  replace (Z.of_nat (S (length pre)) - 1)%Z with (Z.of_nat (length pre)) by lia.
  apply py_index_middle.
Qed.

Lemma window_right (pre : list value) l o r post :
  py_index (pre ++ l :: o :: r :: post) (Z.of_nat (S (length pre)) + 1)
  = Return r.
Proof.
  replace (Z.of_nat (S (length pre)) + 1)%Z
    with (Z.of_nat (length (pre ++ [l; o])))
    by (rewrite length_app; cbn; lia).
  replace (pre ++ l :: o :: r :: post) with ((pre ++ [l; o]) ++ r :: post)
    by (rewrite <- app_assoc; reflexivity).
  apply py_index_middle.
Qed.

Lemma window_collapse (pre : list value) l o r post t :
  (out <- py_setitem (pre ++ l :: o :: r :: post) (Z.of_nat (S (length pre))) t ;;
   out <- py_delitem out (Z.of_nat (S (length pre)) - 1) ;;
   py_delitem out (Z.of_nat (S (length pre))))
  = Return (pre ++ t :: post).
Proof.
  replace (pre ++ l :: o :: r :: post) with ((pre ++ [l]) ++ o :: r :: post)
    by (rewrite <- app_assoc; reflexivity).
  replace (Z.of_nat (S (length pre))) with (Z.of_nat (length (pre ++ [l])))
    by (rewrite length_app; cbn; lia).
  rewrite py_setitem_middle. cbn [obind].
  rewrite <- app_assoc. cbn [app].
  replace (Z.of_nat (length (pre ++ [l])) - 1)%Z with (Z.of_nat (length pre))
    by (rewrite length_app; cbn; lia).
  rewrite py_delitem_middle. cbn [obind].
  replace (pre ++ t :: r :: post) with ((pre ++ [t]) ++ r :: post)
    by (rewrite <- app_assoc; reflexivity).
  replace (length (pre ++ [l])) with (length (pre ++ [t]))
    by (rewrite !length_app; reflexivity).
  rewrite py_delitem_middle, <- app_assoc. reflexivity.
Qed.

Section TierFacts.
Variables (op1 op2 : string) (f1 f2 : float -> float -> float)
          (guard : bool).
Hypothesis distinct : (op2 =? op1) = false.

Local Abbreviation chunk_ := (chunk op1 op2 f1 f2 guard).
Local Abbreviation for_loop_ := (for_loop op1 op2 f1 f2 guard).
Local Abbreviation fires_ := (fires op1 op2).

Lemma contains_fires output :
  contains op1 output || contains op2 output = existsb fires_ output.
Proof.
  unfold contains. induction output as [|x output IH]; [reflexivity|].
  cbn [existsb]. rewrite <- IH. unfold fires.
  destruct (eq_str x op1), (eq_str x op2),
    (existsb (fun x => eq_str x op1) output),
    (existsb (fun x => eq_str x op2) output); reflexivity.
Qed.

Lemma chunk_quiet output i x : fires_ x = false -> chunk_ output i x = Go None.
Proof.
  unfold fires, chunk.
  intros H. apply orb_false_elim in H as [-> ->]. reflexivity.
Qed.

Lemma chunk_op1 pre l r post a b :
  to_float l = Return a -> to_float r = Return b ->
  chunk_ (pre ++ l :: VStr op1 :: r :: post) (S (length pre)) (VStr op1)
  = Go (Some (pre ++ VFloat (f1 a b) :: post)).
Proof.
  intros Hl Hr. unfold chunk. cbn [eq_str].
  rewrite String.eqb_refl, String.eqb_sym, distinct.
  rewrite window_left, window_right. cbn [obind]. rewrite Hl, Hr.
  cbn [lift cbind].
  pose proof (window_collapse pre l (VStr op1) r post (VFloat (f1 a b))) as W.
  destruct (py_setitem _ _ _) as [o1| |]; cbn [obind] in W; try discriminate.
  cbn [lift cbind].
  destruct (py_delitem o1 _) as [o2| |]; cbn [obind] in W; try discriminate.
  cbn [lift cbind]. rewrite W. reflexivity.
Qed.

Lemma chunk_op2 pre l r post a b :
  to_float l = Return a -> to_float r = Return b ->
  chunk_ (pre ++ l :: VStr op2 :: r :: post) (S (length pre)) (VStr op2)
  = if guard && (b =? 0)%float then Stop (Return VNan)
    else Go (Some (pre ++ VFloat (f2 a b) :: post)).
Proof.
  intros Hl Hr. unfold chunk. cbn [eq_str].
  rewrite String.eqb_refl, distinct. cbn [cbind].
  rewrite window_left, window_right. cbn [obind]. rewrite Hl, Hr.
  cbn [lift cbind].
  destruct guard, (b =? 0)%float; cbn [cbind andb]; try reflexivity.
  all: pose proof (window_collapse pre l (VStr op2) r post (VFloat (f2 a b))) as W.
  all: destruct (py_setitem _ _ _) as [o1| |]; cbn [obind] in W; try discriminate.
  all: cbn [lift cbind].
  all: destruct (py_delitem o1 _) as [o2| |]; cbn [obind] in W; try discriminate.
  all: cbn [lift cbind]; rewrite W; reflexivity.
Qed.

Lemma for_loop_skip pre output i rest :
  existsb fires_ pre = false ->
  for_loop_ output i (pre ++ rest) = for_loop_ output (length pre + i) rest.
Proof.
  revert i. induction pre as [|x pre IH]; intros i H; [reflexivity|].
  cbn [existsb] in H. apply orb_false_elim in H as [Hx Hpre].
  cbn [app length]. cbn [for_loop]. rewrite chunk_quiet by assumption.
  cbn [cbind]. rewrite IH by assumption. f_equal. lia.
Qed.

(** The scan stops at the first operator of the tier. *)
Lemma for_loop_first pre l o r post :
  existsb fires_ (pre ++ [l]) = false ->
  for_loop_ (pre ++ l :: VStr o :: r :: post) 0
           (pre ++ l :: VStr o :: r :: post)
  = r' <~ chunk_ (pre ++ l :: VStr o :: r :: post) (S (length pre)) (VStr o) ;;
    match r' with
    | Some output' => Go output'
    | None => for_loop_ (pre ++ l :: VStr o :: r :: post)
                (S (S (length pre))) (r :: post)
    end.
Proof.
  intros H.
  replace (pre ++ l :: VStr o :: r :: post)
    with ((pre ++ [l]) ++ VStr o :: r :: post) at 2
    by (rewrite <- app_assoc; reflexivity).
  rewrite for_loop_skip by assumption.
  rewrite length_app. cbn [length].
  replace (length pre + 1 + 0) with (S (length pre)) by lia.
  reflexivity.
Qed.
End TierFacts.

(** ** Operands and operator symbols *)

Lemma denotes_to_float v f : denotes v f -> to_float v = Return f.
Proof.
  destruct v as [s|g|]; cbn; intros H; [now rewrite H | now subst | easy].
Qed.

Lemma denotes_py_float v f : denotes v f -> py_float v = Return (VFloat f).
Proof.
  destruct v as [s|g|]; cbn; intros H; [now rewrite H | now subst | easy].
Qed.

Lemma digit_not_operator s f :
  float_of_string s = Some f -> is_operator s = false.
Proof.
  intros H. unfold is_operator.
  destruct (String.eqb_spec s "+") as [->|_]; [discriminate|].
  destruct (String.eqb_spec s "-") as [->|_]; [discriminate|].
  destruct (String.eqb_spec s "*") as [->|_]; [discriminate|].
  destruct (String.eqb_spec s "/") as [->|_]; [discriminate|].
  reflexivity.
Qed.

Lemma denotes_quiet v f o :
  denotes v f -> is_operator o = true -> eq_str v o = false.
Proof.
  destruct v as [s|g|]; cbn; intros H Ho; try reflexivity.
  destruct (String.eqb_spec s o) as [->|_]; [|reflexivity].
  apply digit_not_operator in H. congruence.
Qed.

Lemma denotes_quiet_tier op1 op2 v f :
  is_operator op1 = true -> is_operator op2 = true ->
  denotes v f -> fires op1 op2 v = false.
Proof.
  intros H1 H2 H. unfold fires.
  now rewrite (denotes_quiet v f op1), (denotes_quiet v f op2).
Qed.

Lemma binop_of_string_symbol s b : binop_of_string s = Some b -> s = symbol b.
Proof.
  unfold binop_of_string.
  destruct (String.eqb_spec s "+") as [->|_]; [now intros [= <-]|].
  destruct (String.eqb_spec s "-") as [->|_]; [now intros [= <-]|].
  destruct (String.eqb_spec s "*") as [->|_]; [now intros [= <-]|].
  destruct (String.eqb_spec s "/") as [->|_]; [now intros [= <-]|].
  discriminate.
Qed.

Lemma flat_cons o v ops : flat ((o, v) :: ops) = VStr o :: v :: flat ops.
Proof. reflexivity. Qed.

Lemma length_flat ops : length (flat ops) = 2 * length ops.
Proof.
  induction ops as [|p ops IH]; [reflexivity|].
  change (flat (p :: ops)) with (VStr (fst p) :: snd p :: flat ops).
  cbn [length]. rewrite IH. lia.
Qed.

Lemma operations_flat ops :
  forall rest, operations rest = Some ops ->
  exists opsv, map VStr rest = flat opsv /\ Forall2 agrees opsv ops.
Proof.
  induction ops as [|[b f] ops IH]; intros rest H.
  - destruct rest as [|o [|d rest]]; cbn in H; try discriminate.
    + exists []. split; [reflexivity | constructor].
    + destruct (binop_of_string o), (float_of_string d), (operations rest);
        discriminate.
  - destruct rest as [|o [|d rest]]; cbn in H; try discriminate.
    destruct (binop_of_string o) as [b'|] eqn:Hb; [|discriminate].
    destruct (float_of_string d) as [f'|] eqn:Hf; [|discriminate].
    destruct (operations rest) as [ops'|] eqn:Hr; [|discriminate].
    injection H as -> -> ->.
    destruct (IH rest Hr) as (opsv & E & F).
    exists ((o, VStr d) :: opsv). split.
    + cbn. now rewrite E.
    + constructor; [|assumption]. split; cbn; [|assumption].
      now apply binop_of_string_symbol.
Qed.

Lemma while_loop_step op1 op2 f1 f2 guard fuel output :
  while_loop op1 op2 f1 f2 guard (S fuel) output
  = if existsb (fires op1 op2) output then
      output' <~ for_loop op1 op2 f1 f2 guard output 0 output ;;
      while_loop op1 op2 f1 f2 guard fuel output'
    else Go output.
Proof. cbn [while_loop]. now rewrite contains_fires. Qed.

Lemma existsb_fires_window op1 op2 pre l o r post :
  fires op1 op2 (VStr o) = true ->
  existsb (fires op1 op2) (pre ++ l :: VStr o :: r :: post) = true.
Proof.
  intros H. rewrite existsb_app. cbn [existsb]. rewrite H.
  now rewrite !orb_true_r.
Qed.

(** ** The multiplicative tier *)

(** Operands and additive operators do not stop the scan for [*] and [/]. *)
Lemma quiet_operand pre accv acc :
  existsb (fires "*" "/") pre = false -> denotes accv acc ->
  existsb (fires "*" "/") (pre ++ [accv]) = false.
Proof.
  intros Hpre Hacc. rewrite existsb_app. cbn [existsb].
  now rewrite Hpre, (denotes_quiet_tier "*" "/" accv acc).
Qed.

Lemma quiet_additive pre accv acc b :
  existsb (fires "*" "/") pre = false -> denotes accv acc ->
  additive b = true ->
  existsb (fires "*" "/") (pre ++ [accv; VStr (symbol b)]) = false.
Proof.
  intros Hpre Hacc Hb.
  change [accv; VStr (symbol b)] with ([accv] ++ [VStr (symbol b)]).
  rewrite app_assoc, existsb_app, (quiet_operand pre accv acc) by assumption.
  destruct b; try discriminate; reflexivity.
Qed.

(** One pass of the [while] loop over a product, and over a quotient. *)
Lemma mul_tier_product fuel pre accv acc dv d rest :
  existsb (fires "*" "/") pre = false -> denotes accv acc -> denotes dv d ->
  mul_tier (S fuel) (pre ++ accv :: VStr "*" :: dv :: rest)
  = mul_tier fuel (pre ++ VFloat (acc * d) :: rest).
Proof.
  intros Hpre Hacc Hd. unfold mul_tier.
  rewrite while_loop_step, existsb_fires_window by reflexivity.
  rewrite for_loop_first by now apply (quiet_operand pre accv acc).
  rewrite (chunk_op1 "*" "/" _ _ _ eq_refl pre accv dv _ acc d)
    by now apply denotes_to_float.
  reflexivity.
Qed.

Lemma mul_tier_quotient fuel pre accv acc dv d rest :
  existsb (fires "*" "/") pre = false -> denotes accv acc -> denotes dv d ->
  mul_tier (S fuel) (pre ++ accv :: VStr "/" :: dv :: rest)
  = if (d =? 0)%float then Stop (Return VNan)
    else mul_tier fuel (pre ++ VFloat (acc / d) :: rest).
Proof.
  intros Hpre Hacc Hd. unfold mul_tier.
  rewrite while_loop_step, existsb_fires_window by reflexivity.
  rewrite for_loop_first by now apply (quiet_operand pre accv acc).
  rewrite (chunk_op2 "*" "/" _ _ _ eq_refl pre accv dv _ acc d)
    by now apply denotes_to_float.
  cbn [andb]. destruct (d =? 0)%float; reflexivity.
Qed.

Lemma mul_tier_spec opsv opsf :
  Forall2 agrees opsv opsf ->
  forall pre accv acc fuel,
    existsb (fires "*" "/") pre = false ->
    denotes accv acc ->
    length opsf < fuel ->
    match spec_multiplicative acc opsf with
    | None => mul_tier fuel (pre ++ accv :: flat opsv) = Stop (Return VNan)
    | Some (t, ts) =>
        exists tv tsv,
          mul_tier fuel (pre ++ accv :: flat opsv) = Go (pre ++ tv :: flat tsv)
          /\ denotes tv t /\ Forall2 agrees tsv ts
          /\ forallb additive (map fst ts) = true
    end.
Proof.
  induction 1 as [|[o dv] [b d] opsv opsf [Ho Hd] F IH];
    intros pre accv acc fuel Hpre Hacc Hfuel.
  - cbn [spec_multiplicative]. exists accv, []. repeat split; auto.
    destruct fuel as [|fuel]; [cbn in Hfuel; lia|].
    unfold mul_tier. rewrite while_loop_step.
    change (flat []) with (@nil value).
    now rewrite (quiet_operand pre accv acc).
  - cbn in Ho, Hd. subst o. cbn [length] in Hfuel.
    rewrite flat_cons. cbn [spec_multiplicative].
    destruct (additive b) eqn:Hb.
    + (* an additive operator stays where it is *)
      specialize (IH (pre ++ [accv; VStr (symbol b)]) dv d fuel
                    (quiet_additive pre accv acc b Hpre Hacc Hb) Hd).
      rewrite <- app_assoc in IH. cbn [app] in IH.
      destruct (spec_multiplicative d opsf) as [[t ts]|]; [|apply IH; lia].
      destruct IH as (tv & tsv & E & Ht & Fts & Hadd); [lia|].
      exists accv, ((symbol b, tv) :: tsv). repeat split; auto.
      * rewrite flat_cons, E, <- app_assoc. reflexivity.
      * constructor; [split; auto | assumption].
      * cbn [map fst forallb]. now rewrite Hb.
    + (* a product or a quotient collapses into the operand on its left *)
      destruct fuel as [|fuel]; [lia|].
      destruct b; try discriminate; cbn [symbol divides_by_zero apply_op].
      * rewrite (mul_tier_product fuel pre accv acc dv d) by assumption.
        apply IH; [assumption | reflexivity | lia].
      * rewrite (mul_tier_quotient fuel pre accv acc dv d) by assumption.
        destruct (d =? 0)%float; [reflexivity|].
        apply IH; [assumption | reflexivity | lia].
Qed.

(** ** The additive tier *)

Lemma add_tier_spec tsv tsf :
  Forall2 agrees tsv tsf ->
  forallb additive (map fst tsf) = true ->
  forall accv acc fuel,
    denotes accv acc ->
    length tsf < fuel ->
    exists v,
      add_tier fuel (accv :: flat tsv) = Go [v]
      /\ denotes v (spec_additive acc tsf).
Proof.
  induction 1 as [|[o dv] [b d] tsv tsf [Ho Hd] F IH];
    intros Hadd accv acc fuel Hacc Hfuel.
  - exists accv. split; [|assumption].
    destruct fuel as [|fuel]; [cbn in Hfuel; lia|].
    unfold add_tier. rewrite while_loop_step.
    change (flat []) with (@nil value). cbn [existsb].
    now rewrite (denotes_quiet_tier "+" "-" accv acc).
  - cbn in Ho, Hd. subst o. cbn [length] in Hfuel.
    cbn [map fst forallb] in Hadd. apply andb_prop in Hadd as [Hb Hadd].
    destruct fuel as [|fuel]; [lia|].
    assert (Hq : existsb (fires "+" "-") ([] ++ [accv]) = false).
    { cbn [app existsb].
      now rewrite (denotes_quiet_tier "+" "-" accv acc). }
    unfold spec_additive.
    destruct b; try discriminate; cbn [fold_left apply_op fst snd symbol].
    + assert (Step : add_tier (S fuel) (accv :: flat (("+", dv) :: tsv))
                     = add_tier fuel (VFloat (acc + d) :: flat tsv)).
      { unfold add_tier. rewrite flat_cons.
        change (accv :: VStr "+" :: dv :: flat tsv)
          with ([] ++ accv :: VStr "+" :: dv :: flat tsv).
        rewrite while_loop_step.
        rewrite (existsb_fires_window "+" "-" [] accv "+" dv) by reflexivity.
        rewrite (for_loop_first "+" "-" _ _ _ [] accv "+" dv) by assumption.
        rewrite (chunk_op1 "+" "-" _ _ _ eq_refl [] accv dv _ acc d)
          by now apply denotes_to_float.
        reflexivity. }
      rewrite Step. apply IH; [assumption | reflexivity | lia].
    + assert (Step : add_tier (S fuel) (accv :: flat (("-", dv) :: tsv))
                     = add_tier fuel (VFloat (acc - d) :: flat tsv)).
      { unfold add_tier. rewrite flat_cons.
        change (accv :: VStr "-" :: dv :: flat tsv)
          with ([] ++ accv :: VStr "-" :: dv :: flat tsv).
        rewrite while_loop_step.
        rewrite (existsb_fires_window "+" "-" [] accv "-" dv) by reflexivity.
        rewrite (for_loop_first "+" "-" _ _ _ [] accv "-" dv) by assumption.
        rewrite (chunk_op2 "+" "-" _ _ _ eq_refl [] accv dv _ acc d)
          by now apply denotes_to_float.
        reflexivity. }
      rewrite Step. apply IH; [assumption | reflexivity | lia].
Qed.

(** ** The evaluator on a well-formed sequence *)

Lemma evaluate_parsed toks first ops :
  parse toks = Some (first, ops) ->
  _evaluate (tokens toks) = Return (result_value (spec_evaluate first ops)).
Proof.
  intros H. destruct toks as [|d rest]; [discriminate|]. cbn [parse] in H.
  destruct (float_of_string d) as [f|] eqn:Hd; [|discriminate].
  destruct (operations rest) as [ops'|] eqn:Hr; [|discriminate].
  injection H as -> ->.
  destruct (operations_flat _ _ Hr) as (opsv & E & F).
  unfold tokens. cbn [map]. rewrite E.
  pose proof (Forall2_length F) as Hlen.
  pose proof (length_flat opsv) as Hflat.
  unfold _evaluate, spec_evaluate.
  pose proof (mul_tier_spec opsv ops F [] (VStr d) first
                (S (length (VStr d :: flat opsv))) eq_refl Hd) as M.
  cbn [app] in M.
  destruct (spec_multiplicative first ops) as [[t ts]|].
  - destruct M as (tv & tsv & -> & Ht & Fts & Hadd); [cbn [length]; lia|].
    cbn [cbind].
    pose proof (Forall2_length Fts) as Hlen'.
    pose proof (length_flat tsv) as Hflat'.
    destruct (add_tier_spec tsv ts Fts Hadd tv t
                (S (length (tv :: flat tsv))) Ht) as (v & -> & Hv);
      [cbn [length]; lia|].
    cbn [cbind length Nat.eqb finish]. unfold py_index. cbn.
    now apply denotes_py_float.
  - rewrite M; [reflexivity | cbn [length]; lia].
Qed.

Lemma alternating_parse toks :
  alternating toks = true -> exists first ops, parse toks = Some (first, ops).
Proof.
  assert (G : forall n toks, length toks <= n -> alternating toks = true ->
              exists first ops, parse toks = Some (first, ops)).
  { clear toks. induction n as [|n IH]; intros toks Hn H.
    - destruct toks; [discriminate | cbn in Hn; lia].
    - destruct toks as [|d [|o rest]]; [discriminate| |].
      + cbn in H. unfold is_digit in H. cbn [parse operations].
        destruct (float_of_string d) as [f|]; [|discriminate]. eauto.
      + cbn [alternating] in H.
        apply andb_prop in H as [H Hrest]. apply andb_prop in H as [Hd Ho].
        destruct (IH rest) as (f' & ops' & P); [cbn in Hn; lia | assumption|].
        destruct rest as [|d' rest']; [discriminate|].
        cbn [parse] in P. cbn [parse operations].
        unfold is_digit in Hd.
        destruct (float_of_string d) as [f|]; [|discriminate].
        assert (exists b, binop_of_string o = Some b) as [b ->].
        { unfold is_operator in Ho. unfold binop_of_string.
          destruct (o =? "+"); [eauto|].
          destruct (o =? "-"); [eauto|].
          destruct (o =? "*"); [eauto|].
          destruct (o =? "/"); [eauto|discriminate]. }
        destruct (float_of_string d') as [g|]; [|discriminate].
        destruct (operations rest') as [ops''|]; [|discriminate].
        eauto. }
  eauto.
Qed.

(** C1: on every well-formed alternating token sequence the evaluator
    gives what the two tiers of the specification give: every
    multiplicative operator folded from the left into the operand on its
    left, and only then the additive operators folded from the left over
    the result (an invalid first tier makes the result [math.nan]). *)
Theorem evaluate_precedence (toks : list string) :
  alternating toks = true ->
  exists first ops,
    parse toks = Some (first, ops)
    /\ _evaluate (tokens toks)
       = Return (result_value (spec_evaluate first ops)).
Proof.
  intros H. destruct (alternating_parse toks H) as (first & ops & P).
  exists first, ops. split; [assumption|]. now apply evaluate_parsed.
Qed.

Lemma evaluate_precedence_witness :
  alternating ["2"; "+"; "3"; "*"; "4"] = true
  /\ _evaluate (tokens ["2"; "+"; "3"; "*"; "4"]) = Return (VFloat 14).
Proof.
  split; [reflexivity|].
  destruct (evaluate_precedence ["2"; "+"; "3"; "*"; "4"] eq_refl)
    as (first & ops & P & E).
  rewrite E. vm_compute in P. injection P as <- <-.
  vm_compute. reflexivity.
Defined.

(** ** Division by zero *)

Lemma spec_multiplicative_zero_divisor ops :
  forall acc d,
    In (Div, d) ops -> (d =? 0)%float = true ->
    spec_multiplicative acc ops = None.
Proof.
  induction ops as [|[o e] ops IH]; intros acc d Hin Hz; [contradiction|].
  destruct Hin as [[= -> ->]|Hin].
  - cbn. now rewrite Hz.
  - destruct o; cbn [spec_multiplicative additive divides_by_zero].
    + now rewrite (IH e d).
    + now rewrite (IH e d).
    + now apply (IH _ d).
    + destruct (e =? 0)%float; [reflexivity | now apply (IH _ d)].
Qed.

(** A division by a zero digit anywhere in a well-formed sequence makes
    the evaluation invalid. *)
Lemma zero_divisor_anywhere toks first ops d :
  parse toks = Some (first, ops) ->
  In (Div, d) ops -> (d =? 0)%float = true ->
  _evaluate (tokens toks) = Return VNan.
Proof.
  intros P Hin Hz. rewrite (evaluate_parsed toks first ops P).
  unfold spec_evaluate.
  now rewrite (spec_multiplicative_zero_divisor ops first d).
Qed.


Lemma chunk_zero_divisor pre l r post b :
  to_float r = Return b -> (b =? 0)%float = true ->
  chunk "*" "/" PrimFloat.mul PrimFloat.div true
        (pre ++ l :: VStr "/" :: r :: post) (S (length pre)) (VStr "/")
  = Stop (Return VNan).
Proof.
  intros Hr Hz. unfold chunk. cbn [eq_str].
  change ("/" =? "*") with false. change ("/" =? "/") with true.
  cbn [cbind]. rewrite window_right. cbn [obind]. rewrite Hr.
  cbn [lift cbind]. rewrite Hz. reflexivity.
Qed.

(** C4: when the first multiplicative operator of the working list is
    [/] and the operand on its right is zero, the scan leaves the
    function with [math.nan] at once: the first pass of the [while] loop
    already stops, whatever follows in the list, and so does the whole
    evaluation. *)
Theorem division_by_zero_invalid (pre : list value) l r post b :
  existsb (fires "*" "/") (pre ++ [l]) = false ->
  to_float r = Return b ->
  (b =? 0)%float = true ->
  let output := pre ++ l :: VStr "/" :: r :: post in
  for_loop "*" "/" PrimFloat.mul PrimFloat.div true output 0 output
  = Stop (Return VNan)
  /\ (forall fuel, mul_tier (S fuel) output = Stop (Return VNan))
  /\ _evaluate output = Return VNan.
Proof.
  intros Hq Hr Hz output.
  assert (F : for_loop "*" "/" PrimFloat.mul PrimFloat.div true output 0 output
              = Stop (Return VNan)).
  { unfold output.
    rewrite (for_loop_first "*" "/" _ _ _ pre l "/" r post Hq).
    now rewrite (chunk_zero_divisor pre l r post b). }
  assert (W : forall fuel, mul_tier (S fuel) output = Stop (Return VNan)).
  { intros fuel. unfold mul_tier. rewrite while_loop_step.
    unfold output at 1. rewrite existsb_fires_window by reflexivity.
    now rewrite F. }
  repeat split; [assumption | assumption |].
  unfold _evaluate. now rewrite W.
Qed.

Lemma division_by_zero_invalid_witness :
  _evaluate (tokens ["1"; "/"; "0"]) = Return VNan.
Proof.
  exact (proj2 (proj2 (division_by_zero_invalid [] (VStr "1") (VStr "0") [] 0
                         eq_refl eq_refl eq_refl))).
Defined.

(** ** fitness *)

Lemma prim_zero : Prim2SF 0 = S754_zero false.
Proof. vm_compute. reflexivity. Qed.

(** An absolute value is a NaN or is not below zero. *)
Lemma abs_sign x :
  is_nan (abs x) = true \/ (0 <=? abs x)%float = true.
Proof.
  unfold is_nan. rewrite eqb_spec, leb_spec, abs_spec, prim_zero.
  destruct (Prim2SF x) as [s|s| |s m e]; cbn.
  - right. reflexivity.
  - right. reflexivity.
  - left. reflexivity.
  - right. reflexivity.
Qed.

Lemma tokens_no_nan toks : existsb is_math_nan (tokens toks) = false.
Proof. induction toks as [|t toks IH]; [reflexivity | exact IH]. Qed.

Lemma fitness_of_evaluate toks target :
  fitness (tokens toks) target
  = result <- _evaluate (tokens toks) ;;
    match result with
    | VNan => Return VNan
    | VFloat r => Return (VFloat (abs (target - r)))
    | VStr _ => Raise TypeError
    end.
Proof. unfold fitness. now rewrite tokens_no_nan. Qed.

(** Two runs of [fitness] with target 5: the empty list raises, and a
    product that overflows before it meets a zero factor scores a NaN
    that is not [math.nan] and is not at or above zero. *)
Lemma fitness_counterexample :
  fitness [] 5 = Raise IndexError
  /\ alternating overflow_tokens = true
  /\ fitness (tokens overflow_tokens) 5 = Return (VFloat nan)
  /\ (0 <=? nan)%float = false.
Proof. vm_compute. repeat split; reflexivity. Qed.

(** C2: on the empty list [fitness] raises [IndexError] (its callers drop
    an empty decode before they score it); on every well-formed sequence
    the evaluation gives a float [v] or [math.nan], and [fitness] gives
    [abs (target - v)], which is a NaN or not below zero, or hands
    [math.nan] on. *)
Theorem fitness_spec (target : float) (toks : list string) :
  fitness [] target = Raise IndexError
  /\ (alternating toks = true ->
      (exists v,
          _evaluate (tokens toks) = Return (VFloat v)
          /\ fitness (tokens toks) target = Return (VFloat (abs (target - v)))
          /\ (is_nan (abs (target - v)) = true
              \/ (0 <=? abs (target - v))%float = true))
      \/ (_evaluate (tokens toks) = Return VNan
          /\ fitness (tokens toks) target = Return VNan)).
Proof.
  split; [reflexivity|]. intros H.
  destruct (alternating_parse toks H) as (first & ops & P).
  rewrite fitness_of_evaluate, (evaluate_parsed toks first ops P).
  destruct (spec_evaluate first ops) as [v|]; cbn [result_value obind].
  - left. exists v. repeat split. apply abs_sign.
  - right. split; reflexivity.
Qed.

Lemma fitness_spec_witness :
  alternating ["5"] = true
  /\ fitness (tokens ["5"]) 8 = Return (VFloat 3)
  /\ fitness (tokens ["1"; "/"; "0"]) 8 = Return VNan.
Proof.
  split; [reflexivity|]. split.
  - destruct (proj2 (fitness_spec 8 ["5"]) eq_refl)
      as [(v & E & F & _)|(E & _)]; [|discriminate E].
    rewrite F. vm_compute in E. injection E as <-. reflexivity.
  - destruct (proj2 (fitness_spec 8 ["1"; "/"; "0"]) eq_refl)
      as [(v & E & _)|(_ & F)]; [discriminate E | exact F].
Defined.

(** ** decode *)

Lemma pair_induction {A : Type} (P : list A -> Prop) :
  P [] -> (forall x, P [x]) -> (forall x y l, P l -> P (x :: y :: l)) ->
  forall l, P l.
Proof.
  intros H0 H1 H2.
  assert (G : forall l, P l /\ forall x, P (x :: l)).
  { induction l as [|y l [IH1 IH2]]; split; auto. }
  intros l. apply G.
Qed.

Lemma alternating_snoc l o d :
  alternating l = true -> is_operator o = true -> is_digit d = true ->
  alternating (l ++ [o; d]) = true.
Proof.
  intros H Ho Hd. revert H.
  induction l as [|x|x y l IH] using pair_induction; intros H.
  - discriminate.
  - cbn in *. now rewrite H, Ho, Hd.
  - change (alternating (x :: y :: l ++ [o; d]) = true).
    cbn [alternating] in *.
    apply andb_prop in H as [H Hl]. rewrite H. now apply IH.
Qed.

Lemma alternating_last l : alternating l = true -> is_digit (last l "") = true.
Proof.
  induction l as [|x|x y l IH] using pair_induction; intros H.
  - discriminate.
  - exact H.
  - cbn [alternating] in H. apply andb_prop in H as [_ Hl].
    destruct l as [|z l]; [discriminate|].
    change (last (x :: y :: z :: l) "") with (last (z :: l) "").
    now apply IH.
Qed.

Lemma is_digit_isdigit s : is_digit s = true -> isdigit s = true.
Proof.
  unfold is_digit, float_of_string.
  repeat match goal with
         | |- context [String.eqb s ?k] =>
             destruct (String.eqb_spec s k) as [->|_]; [reflexivity|]
         end.
  discriminate.
Qed.

Lemma is_operator_isdigit s : is_operator s = true -> isdigit s = false.
Proof.
  unfold is_operator.
  repeat match goal with
         | |- context [String.eqb s ?k] =>
             destruct (String.eqb_spec s k) as [->|_]; [reflexivity|]
         end.
  discriminate.
Qed.

(** A valid code decodes to a digit or to an operator. *)
Lemma valid_code_symbol g :
  valid_code g = true ->
  exists s, getitem GREYCODE g = Return s
            /\ (is_digit s = true \/ is_operator s = true).
Proof.
  unfold valid_code. cbn [keys GREYCODE map fst existsb].
  repeat match goal with
         | |- context [String.eqb g ?k] =>
             destruct (String.eqb_spec g k) as [->|_];
             [intros _; eexists; split; [reflexivity|];
              vm_compute; auto|]
         end.
  discriminate.
Qed.

Lemma decode_loop_shape genes :
  forall output now_operator,
    forallb valid_code genes = true ->
    decode_shape output now_operator ->
    exists out now', decode_loop genes output now_operator = Return out
                     /\ decode_shape out now'.
Proof.
  induction genes as [|g genes IH]; intros output now Hv Hs.
  - exists output, now. split; [reflexivity | assumption].
  - cbn [forallb] in Hv. apply andb_prop in Hv as [Hg Hv].
    cbn [decode_loop].
    destruct (valid_code_symbol g Hg) as (s & -> & Hsym).
    cbn [obind].
    destruct Hsym as [Hd|Ho].
    + rewrite (is_digit_isdigit s Hd). cbn [negb andb].
      rewrite andb_false_r. destruct now; cbn [negb andb].
      * now apply IH.
      * apply IH; [assumption|]. cbn [decode_shape] in *.
        destruct Hs as [->|(body & op & -> & Hb & Hop)].
        -- cbn. now rewrite Hd.
        -- rewrite <- app_assoc. now apply alternating_snoc.
    + rewrite (is_operator_isdigit s Ho). cbn [negb andb].
      rewrite andb_true_r, andb_false_r. destruct now.
      * apply IH; [assumption|]. right. now exists output, s.
      * now apply IH.
Qed.

(** The trim after the scan: a complete sequence stays, a trailing
    operator goes. *)
Lemma decode_trim out now_operator :
  decode_shape out now_operator ->
  exists out',
    match out with
    | [] => Return out
    | _ :: _ =>
        if negb (isdigit (last out "")) then Return (removelast out)
        else Return out
    end = Return out'
    /\ (out' = [] \/ alternating out' = true).
Proof.
  intros Hs. destruct now_operator; cbn [decode_shape] in Hs.
  - pose proof (alternating_last out Hs) as Hl.
    destruct out as [|x out]; [discriminate|].
    rewrite (is_digit_isdigit _ Hl). cbn [negb]. eauto.
  - destruct Hs as [->|(body & op & -> & Hb & Hop)]; [eauto|].
    destruct (body ++ [op]) as [|x l] eqn:El.
    + now destruct body.
    + rewrite <- El, last_last, (is_operator_isdigit op Hop). cbn [negb].
      rewrite removelast_last. eauto.
Qed.

Lemma decode_returns c :
  forallb valid_code c = true -> exists out, decode c = Return out.
Proof.
  intros Hv.
  destruct (decode_loop_shape c [] false Hv) as (out & now' & E & Hs);
    [now left|].
  destruct (decode_trim out now' Hs) as (out' & T & _).
  exists out'. unfold decode. rewrite E. exact T.
Qed.

(** C3: on a chromosome of valid codes [decode] returns, and what it
    returns is empty or alternates digit, operator, ..., digit. *)
Theorem decode_well_formed (c : chromosome) :
  forallb valid_code c = true ->
  exists out, decode c = Return out /\ (out = [] \/ alternating out = true).
Proof.
  intros Hv.
  destruct (decode_loop_shape c [] false Hv) as (out & now' & E & Hs);
    [now left|].
  destruct (decode_trim out now' Hs) as (out' & T & W).
  exists out'. split; [|exact W].
  unfold decode. rewrite E. exact T.
Qed.


Lemma decode_well_formed_witness :
  forallb valid_code ["1010"; "0010"; "0111"; "1010"; "1100"; "0011"; "1100"]
  = true
  /\ exists out,
       decode ["1010"; "0010"; "0111"; "1010"; "1100"; "0011"; "1100"]
       = Return out
       /\ (out = [] \/ alternating out = true).
Proof.
  split; [reflexivity|].
  apply (decode_well_formed
           ["1010"; "0010"; "0111"; "1010"; "1100"; "0011"; "1100"]).
  reflexivity.
Defined.

(** ** roulette *)

Lemma roulette_loop_first (old_pool : pool) :
  forall selection spinner,
    old_pool <> [] ->
    (selection <=? fold_left PrimFloat.add (map snd old_pool) spinner)%float = true ->
    exists k c f,
      nth_error old_pool k = Some (c, f)
      /\ roulette_loop selection spinner old_pool = Some c
      /\ (selection <=? fold_left PrimFloat.add
                          (firstn (S k) (map snd old_pool)) spinner)%float = true
      /\ forall j, j < k ->
           (selection <=? fold_left PrimFloat.add
                            (firstn (S j) (map snd old_pool)) spinner)%float = false.
Proof.
  induction old_pool as [|[c f] rest IH]; intros selection spinner Hne Hsel;
    [congruence|].
  cbn [roulette_loop map snd].
  destruct (selection <=? spinner + f)%float eqn:Hhit.
  - exists 0, c, f. repeat split; [exact Hhit|]. intros j Hj. lia.
  - destruct rest as [|p rest'].
    + cbn in Hsel. congruence.
    + destruct (IH selection (spinner + f)%float) as (k & c' & f' & Hk & Hr & Hle & Hlt);
        [discriminate | exact Hsel |].
      exists (S k), c', f'. repeat split; try assumption.
      intros [|j] Hj; [exact Hhit|]. apply Hlt. lia.
Qed.

Lemma zero_of_eqb x : (x =? 0)%float = true -> exists s, Prim2SF x = S754_zero s.
Proof.
  rewrite eqb_spec, prim_zero.
  destruct (Prim2SF x) as [s|s| |s m e]; cbn; try discriminate; eauto.
  - destruct s; discriminate.
  - destruct s; discriminate.
Qed.

Lemma prim_one : exists m e, Prim2SF 1 = S754_finite false m e.
Proof. vm_compute. eauto. Qed.

(** A draw of [[0, 1)] is a zero or a positive finite float. *)
Lemma unit_shape u :
  (0 <=? u)%float = true -> (u <? 1)%float = true ->
  (exists s, Prim2SF u = S754_zero s)
  \/ (exists m e, Prim2SF u = S754_finite false m e).
Proof.
  rewrite leb_spec, ltb_spec, prim_zero.
  destruct prim_one as (m1 & e1 & ->).
  destruct (Prim2SF u) as [s|s| |s m e]; cbn; try discriminate; eauto.
  - destruct s; discriminate.
  - destruct s; [discriminate | eauto].
Qed.

(** Zero times a draw of [[0, 1)], added to zero, is zero. *)
Lemma uniform_zero total u :
  (total =? 0)%float = true ->
  (0 <=? u)%float = true -> (u <? 1)%float = true ->
  (0 + (total - 0) * u)%float = 0%float.
Proof.
  intros Ht H0 H1. apply Prim2SF_inj.
  rewrite add_spec, mul_spec, sub_spec, prim_zero.
  destruct (zero_of_eqb total Ht) as (s & ->).
  destruct (unit_shape u H0 H1) as [(s' & ->)|(m & e & ->)];
    destruct s; try destruct s'; reflexivity.
Qed.

(** Zero is not above zero plus a fitness that is not below zero. *)
Lemma first_entry_reaches f :
  (0 <=? f)%float = true -> (0 <=? 0 + f)%float = true.
Proof.
  rewrite !leb_spec, add_spec, prim_zero.
  destruct (Prim2SF f) as [s|s| |s m e]; cbn; try discriminate.
  - destruct s; reflexivity.
  - destruct s; [discriminate | reflexivity].
  - destruct s; [discriminate | reflexivity].
Qed.

(** Under plain summation the sum is the last running total of the
    walk. *)
Lemma sum_plain_running (fs : list float) :
  sum Plain fs = running fs (length fs - 1).
Proof.
  unfold running, sum. destruct fs as [|f fs]; [reflexivity|].
  cbn [length]. rewrite Nat.sub_succ, Nat.sub_0_r.
  change (S (length fs)) with (length (f :: fs)). now rewrite firstn_all.
Qed.

(** X20: on a non-empty pool, under either summation, with a draw that
    is not above the last running total of the walk, [roulette] returns
    the chromosome of the first entry whose running total reaches the
    draw; under plain summation the last running total is the sum, so
    every draw that is not above the sum is such a draw; when the sum
    is zero (and the first fitness is not below zero) the draw is zero
    and the first entry is returned. *)
Theorem roulette_first_reaching (py : summation) (old_pool : pool)
    (g : source) :
  old_pool <> [] ->
  let fs := map snd old_pool in
  let selection := fst (uniform 0 (sum py fs) g) in
  ((selection <=? running fs (length fs - 1))%float = true ->
   exists k c f,
     nth_error old_pool k = Some (c, f)
     /\ fst (roulette py old_pool g) = Some c
     /\ (selection <=? running fs k)%float = true
     /\ forall j, j < k -> (selection <=? running fs j)%float = false)
  /\ sum Plain fs = running fs (length fs - 1)
  /\ (unit_range g ->
      (forall f, In f fs -> (0 <=? f)%float = true) ->
      (sum py fs =? 0)%float = true ->
      selection = 0%float
      /\ exists c f, hd_error old_pool = Some (c, f)
                     /\ fst (roulette py old_pool g) = Some c).
Proof.
  intros Hne fs selection. split; [|split].
  - intros Hsel. rewrite <- sum_plain_running in Hsel.
    destruct (roulette_loop_first old_pool selection 0 Hne Hsel)
      as (k & c & f & Hk & Hr & Hle & Hlt).
    exists k, c, f. repeat split; assumption.
  - apply sum_plain_running.
  - intros Hu Hpos Hzero.
    assert (Hs : selection = 0%float).
    { unfold selection, uniform, random. cbn [fst].
      destruct (Hu (cursor g)) as [H0 H1]. now apply uniform_zero. }
    split; [assumption|].
    destruct old_pool as [|[c f] rest]; [congruence|].
    exists c, f. split; [reflexivity|].
    unfold roulette. fold fs.
    change (fst (uniform 0 (sum py fs) g)) with selection.
    assert (E : uniform 0 (sum py fs) g
                = (selection, snd (uniform 0 (sum py fs) g))).
    { unfold selection. now destruct (uniform 0 (sum py fs) g). }
    rewrite E, Hs. cbn [fst roulette_loop].
    rewrite first_entry_reaches; [reflexivity|].
    apply Hpos. now left.
Qed.

Lemma roulette_first_reaching_witness :
  (exists k c f,
      nth_error [(["0000"], 1%float); (["0001"], 2%float)] k = Some (c, f)
      /\ fst (roulette Compensated [(["0000"], 1%float); (["0001"], 2%float)]
                (constant_source 0.5 0)) = Some c
      /\ (1.5 <=? running [1%float; 2%float] k)%float = true
      /\ forall j, j < k -> (1.5 <=? running [1%float; 2%float] j)%float = false)
  /\ fst (uniform 0 (sum Plain [0%float; 0%float]) (constant_source 0.5 0))
     = 0%float
  /\ exists c f,
       hd_error [(["0000"], 0%float); (["0001"], 0%float)] = Some (c, f)
       /\ fst (roulette Plain [(["0000"], 0%float); (["0001"], 0%float)]
                 (constant_source 0.5 0)) = Some c.
Proof.
  split.
  - refine (proj1 (roulette_first_reaching Compensated
                     [(["0000"], 1%float); (["0001"], 2%float)]
                     (constant_source 0.5 0) _) _).
    + discriminate.
    + vm_compute. reflexivity.
  - refine (proj2 (proj2 (roulette_first_reaching Plain
                     [(["0000"], 0%float); (["0001"], 0%float)]
                     (constant_source 0.5 0) _)) _ _ _).
    + discriminate.
    + intros k. split; reflexivity.
    + intros f [<-|[<-|[]]]; reflexivity.
    + reflexivity.
Defined.

(** C5: the script's pool of 26 members, each the chromosome
    [seventh_chromosome] with the fitness [|1111 - 1/7|] that the
    script's scoring gives it, and the largest draw of
    [random.random()]: the compensated sum is above the last running
    total of the walk, the draw of [[0, sum]] is above it as well, no
    entry reaches it and [roulette] returns [None], on which the
    crossover loop of the script raises [TypeError]; under plain
    summation the same call returns the last entry's chromosome. *)
Theorem roulette_compensated_sum_misses :
  Forall (fun m => score (target script_settings) (fst m) = Return (Some m))
         seventh_pool
  /\ length seventh_pool
     = new_blood_count script_settings + crossovers_count script_settings
       + preserve_count script_settings
  /\ ((0 <=? unit_draw top_source 0)%float = true
      /\ (unit_draw top_source 0 <? 1)%float = true)
  /\ ((0 <=? fst (uniform 0 (sum Compensated (map snd seventh_pool))
                    top_source))%float = true
      /\ (fst (uniform 0 (sum Compensated (map snd seventh_pool)) top_source)
          <=? sum Compensated (map snd seventh_pool))%float = true)
  /\ (running (map snd seventh_pool) 25
      <? fst (uniform 0 (sum Compensated (map snd seventh_pool))
                top_source))%float = true
  /\ fst (roulette Compensated seventh_pool top_source) = None
  /\ crossovers Compensated script_settings 1 seventh_pool [] top_source
     = Raise TypeError
  /\ fst (roulette Plain seventh_pool top_source) = Some seventh_chromosome.
Proof.
  split; [|vm_compute; repeat split; reflexivity].
  unfold seventh_pool. apply Forall_forall. intros m Hm.
  apply repeat_spec in Hm. subst m. vm_compute. reflexivity.
Qed.

(** ** cross *)

Lemma ltb_leb x y : (x <? y)%float = true -> (x <=? y)%float = true.
Proof.
  rewrite ltb_spec, leb_spec. unfold SFltb, SFleb.
  destruct (SFcompare (Prim2SF x) (Prim2SF y)) as [[]|]; easy.
Qed.

Lemma randint_from_one (b : Z) (g : source) :
  (1 <= b)%Z ->
  randint 1 b g
  = Return ((1 + Z.of_nat (index_draw g (cursor g) mod Z.to_nat b))%Z, advance g).
Proof.
  intros Hb. unfold randint, randbelow.
  replace (b + 1 - 1)%Z with b by lia.
  destruct (Z.ltb_spec 0 b); [reflexivity | lia].
Qed.

Lemma cross_crosses c1 c2 rate g :
  length c1 = length c2 -> 2 <= length c1 ->
  (unit_draw g (cursor g) <=? rate)%float = true ->
  exists p g',
    1 <= p <= length c1 - 1
    /\ cross c1 c2 rate g = Return (firstn p c1 ++ skipn p c2, g')
    /\ length (firstn p c1 ++ skipn p c2) = length c1.
Proof.
  intros Hlen H2 Hu.
  set (k := index_draw (advance g) (cursor (advance g)) mod (length c1 - 1)).
  assert (Hk : k < length c1 - 1) by (apply Nat.mod_upper_bound; lia).
  exists (S k), (advance (advance g)). split; [lia|]. split.
  - unfold cross, random. rewrite Hu, length_combine, <- Hlen, Nat.min_id.
    rewrite randint_from_one by lia. cbn [obind].
    replace (Z.to_nat (Z.of_nat (length c1) - 1)) with (length c1 - 1) by lia.
    fold k. replace (Z.to_nat (1 + Z.of_nat k)) with (S k) by lia.
    reflexivity.
  - rewrite length_app, length_firstn, length_skipn. lia.
Qed.

(** C6: with equal-length parents of at least two genes and a rate of
    1.0, every draw of [[0, 1)] makes [cross] cut at a point [p] of
    [1 .. len - 1] and return the genes of [c1] before [p] followed by
    the genes of [c2] from [p] on, as long as [c1]; at any rate, a draw
    above the rate returns the genes of [c1] as they are. *)
Theorem cross_rate_one (c1 c2 : chromosome) (g : source) :
  length c1 = length c2 -> 2 <= length c1 -> unit_range g ->
  (exists p g',
      1 <= p <= length c1 - 1
      /\ cross c1 c2 1 g = Return (firstn p c1 ++ skipn p c2, g')
      /\ length (firstn p c1 ++ skipn p c2) = length c1)
  /\ (forall rate,
        (unit_draw g (cursor g) <=? rate)%float = false ->
        cross c1 c2 rate g = Return (c1, advance g)).
Proof.
  intros Hlen H2 Hu. split.
  - apply cross_crosses; try assumption.
    apply ltb_leb. apply Hu.
  - intros rate Hr. unfold cross, random. now rewrite Hr.
Qed.

Lemma cross_rate_one_witness :
  (exists p g',
      1 <= p <= 3 - 1
      /\ cross ["0000"; "0001"; "0010"] ["1101"; "1100"; "1011"] 1
           (constant_source 0.5 1)
         = Return (firstn p ["0000"; "0001"; "0010"]
                   ++ skipn p ["1101"; "1100"; "1011"], g')
      /\ length (firstn p ["0000"; "0001"; "0010"]
                 ++ skipn p ["1101"; "1100"; "1011"]) = 3)
  /\ (forall rate,
        (0.5 <=? rate)%float = false ->
        cross ["0000"; "0001"; "0010"] ["1101"; "1100"; "1011"] rate
          (constant_source 0.5 1)
        = Return (["0000"; "0001"; "0010"], advance (constant_source 0.5 1))).
Proof.
  apply (cross_rate_one ["0000"; "0001"; "0010"] ["1101"; "1100"; "1011"]
           (constant_source 0.5 1)).
  - reflexivity.
  - cbn. lia.
  - intros k. split; reflexivity.
Defined.

(** ** Draws from the keys of the table *)

Lemma keys_distinct : NoDup (keys GREYCODE) /\ length (keys GREYCODE) = 14.
Proof.
  split; [|reflexivity].
  cbn. repeat (constructor; [cbn; intuition discriminate|]). constructor.
Qed.

Lemma code_at_valid k : valid_code (code_at k) = true.
Proof.
  unfold code_at. change (length (keys GREYCODE)) with 14.
  assert (H : k mod 14 < 14) by (apply Nat.mod_upper_bound; lia).
  destruct (k mod 14) as [|n]; [reflexivity|].
  do 13 (destruct n as [|n]; [reflexivity|]). lia.
Qed.

Lemma py_index_nth (l : list string) (j : nat) :
  j < length l -> py_index l (Z.of_nat j) = Return (nth j l "").
Proof.
  intros Hj. unfold py_index. rewrite resolve_nat by assumption.
  now rewrite (nth_error_nth' l "" Hj).
Qed.

Lemma code_index k :
  py_index (keys GREYCODE) (Z.of_nat (k mod length (keys GREYCODE)))
  = Return (code_at k).
Proof.
  apply py_index_nth. apply Nat.mod_upper_bound. discriminate.
Qed.

Lemma choice_keys g :
  choice (keys GREYCODE) g
  = Return (code_at (index_draw g (cursor g)), advance g).
Proof.
  unfold choice, randbelow.
  destruct (keys GREYCODE) eqn:E; [discriminate|]. rewrite <- E.
  now rewrite code_index.
Qed.

Lemma sample1_keys g :
  sample1 (keys GREYCODE) g
  = Return ([code_at (index_draw g (cursor g))], advance g).
Proof.
  unfold sample1, randbelow.
  destruct (keys GREYCODE) eqn:E; [discriminate|]. rewrite <- E.
  now rewrite code_index.
Qed.

Lemma advance_by_succ n g : advance_by n (advance g) = advance_by (S n) g.
Proof. unfold advance_by. now rewrite Nat.iter_succ_r. Qed.

Lemma cursor_advance_by n g : cursor (advance_by n g) = cursor g + n.
Proof.
  induction n as [|n IH]; [cbn; lia|].
  change (advance_by (S n) g) with (advance (advance_by n g)).
  cbn [advance cursor]. rewrite IH. lia.
Qed.

(** Each key of the table is picked by exactly one residue of the index
    draw. *)
Lemma code_at_one_to_one code :
  valid_code code = true ->
  exists k, k < 14 /\ code_at k = code
            /\ forall k', k' < 14 -> code_at k' = code -> k' = k.
Proof.
  unfold valid_code. cbn [keys GREYCODE map fst existsb].
  repeat match goal with
         | |- context [String.eqb code ?key] =>
             destruct (String.eqb_spec code key) as [->|_];
             [intros _;
              match goal with
              | |- exists k, _ /\ _ = ?c /\ _ =>
                  let rec find n :=
                    first [ exists n; split; [lia|]; split; [reflexivity|]
                          | find (S n) ] in
                  find 0
              end;
              intros k' Hk E;
              do 14 (destruct k' as [|k'];
                     [first [reflexivity | vm_compute in E; discriminate E]|]);
              lia|]
         end.
  discriminate.
Qed.

(** ** generate_chromosome *)

Lemma generate_loop_spec n :
  forall output g,
    generate_loop n output g
    = Return (output
              ++ map (fun i => code_at (index_draw g (cursor g + i))) (seq 0 n),
              advance_by n g).
Proof.
  induction n as [|n IH]; intros output g.
  - cbn. now rewrite app_nil_r.
  - cbn [generate_loop]. rewrite choice_keys. cbn [obind].
    rewrite IH, <- app_assoc, advance_by_succ.
    cbn [seq map app]. rewrite Nat.add_0_r, <- seq_shift, map_map.
    do 4 f_equal. apply map_ext. intros i. cbn [advance cursor index_draw].
    do 2 f_equal. lia.
Qed.

Lemma generate_chromosome_returns length g :
  (3 <= length)%Z ->
  exists c,
    generate_chromosome length g = Return (c, advance_by (Z.to_nat length) g)
    /\ Z.of_nat (List.length c) = length
    /\ (forall i, i < List.length c ->
          nth_error c i = Some (code_at (index_draw g (cursor g + i))))
    /\ forallb valid_code c = true.
Proof.
  intros H. unfold generate_chromosome.
  destruct (Z.ltb_spec length 3); [lia|].
  rewrite generate_loop_spec. cbn [app].
  eexists. split; [reflexivity|]. repeat split.
  - rewrite length_map, length_seq. lia.
  - intros i Hi. rewrite length_map, length_seq in Hi.
    rewrite nth_error_map, nth_error_seq.
    destruct (Nat.ltb_spec i (Z.to_nat length)); [reflexivity | lia].
  - apply forallb_forall. intros x Hx. apply in_map_iff in Hx as (i & <- & _).
    apply code_at_valid.
Qed.

Lemma generate_chromosome_raises length g :
  (length < 3)%Z -> generate_chromosome length g = Raise ValueError.
Proof.
  intros H. unfold generate_chromosome.
  destruct (Z.ltb_spec length 3); [reflexivity | lia].
Qed.

(** C8: [generate_chromosome] raises [ValueError] when the length is
    below 3 and only then; from 3 on it returns a chromosome of that
    many genes, gene [i] being the key that the [i]-th index draw of the
    source picks, one draw for each gene; each of the 14 distinct keys
    of the table is the pick of exactly one residue of a draw, so draws
    that are uniform and independent give genes that are. *)
Theorem generate_chromosome_spec (length : Z) (g : source) :
  ((length < 3)%Z -> generate_chromosome length g = Raise ValueError)
  /\ ((3 <= length)%Z ->
      exists c,
        generate_chromosome length g
        = Return (c, advance_by (Z.to_nat length) g)
        /\ Z.of_nat (List.length c) = length
        /\ (forall i, i < List.length c ->
              nth_error c i
              = Some (code_at (index_draw g (cursor g + i))))
        /\ forallb valid_code c = true)
  /\ (forall code, valid_code code = true ->
        exists k, k < 14 /\ code_at k = code
                  /\ forall k', k' < 14 -> code_at k' = code -> k' = k)
  /\ NoDup (keys GREYCODE) /\ List.length (keys GREYCODE) = 14.
Proof.
  split; [|split; [|split; [exact code_at_one_to_one | exact keys_distinct]]].
  - apply generate_chromosome_raises.
  - apply generate_chromosome_returns.
Qed.

Lemma generate_chromosome_spec_witness :
  generate_chromosome 2 (constant_source 0.5 12) = Raise ValueError
  /\ exists c,
       generate_chromosome 3 (constant_source 0.5 12)
       = Return (c, advance_by (Z.to_nat 3) (constant_source 0.5 12))
       /\ Z.of_nat (List.length c) = 3%Z
       /\ (forall i, i < List.length c ->
             nth_error c i
             = Some (code_at (index_draw (constant_source 0.5 12)
                                (cursor (constant_source 0.5 12) + i))))
       /\ forallb valid_code c = true.
Proof.
  split.
  - apply (proj1 (generate_chromosome_spec 2 (constant_source 0.5 12))). lia.
  - apply (proj1 (proj2 (generate_chromosome_spec 3 (constant_source 0.5 12)))).
    lia.
Defined.

(** ** mutate *)

Lemma nth_error_set_nth {A : Type} (l : list A) :
  forall i j x,
    i < length l ->
    nth_error (set_nth i x l) j
    = if Nat.eqb j i then Some x else nth_error l j.
Proof.
  induction l as [|h l IH]; intros [|i] [|j] x Hi; cbn in *; try lia;
    try reflexivity.
  apply IH. lia.
Qed.

Lemma py_setitem_nat {A : Type} (l : list A) (i : nat) (x : A) :
  i < length l -> py_setitem l (Z.of_nat i) x = Return (set_nth i x l).
Proof. intros Hi. unfold py_setitem. now rewrite resolve_nat. Qed.

(** One pass of the loop body of [mutate]. *)
Lemma mutate_loop_step rate n i output g :
  i < length output ->
  mutate_loop rate (S n) i output g
  = if (unit_draw g (cursor g) <=? rate)%float then
      mutate_loop rate n (S i)
        (set_nth i (code_at (index_draw g (S (cursor g)))) output)
        (advance (advance g))
    else mutate_loop rate n (S i) output (advance g).
Proof.
  intros Hi. cbn [mutate_loop]. unfold random.
  destruct (unit_draw g (cursor g) <=? rate)%float; [|reflexivity].
  rewrite sample1_keys. cbn [obind].
  change (py_index [?x] 0) with (Return x). cbn [obind].
  rewrite py_setitem_nat by assumption. reflexivity.
Qed.

(** Every position of the result holds the gene of the input or a key
    of the table. *)
Lemma mutate_loop_genes rate n :
  forall i output g,
    i + n = length output ->
    exists out g',
      mutate_loop rate n i output g = Return (out, g')
      /\ length out = length output
      /\ forall j, nth_error out j = nth_error output j
                   \/ exists k, nth_error out j = Some (code_at k).
Proof.
  induction n as [|n IH]; intros i output g Hlen.
  - exists output, g. repeat split. now left.
  - rewrite mutate_loop_step by lia.
    destruct (unit_draw g (cursor g) <=? rate)%float.
    + set (x := code_at (index_draw g (S (cursor g)))).
      destruct (IH (S i) (set_nth i x output) (advance (advance g)))
        as (out & g' & E & Hl & Hg);
        [rewrite length_set_nth; lia|].
      exists out, g'. split; [assumption|].
      rewrite length_set_nth in Hl. split; [assumption|].
      intros j. destruct (Hg j) as [Hj|Hj]; [|now right].
      rewrite nth_error_set_nth in Hj by lia.
      destruct (Nat.eqb j i); [right; now exists (index_draw g (S (cursor g)))
                              | now left].
    + apply IH. lia.
Qed.

(** Without a draw at or below the rate nothing is replaced. *)
Lemma mutate_loop_untouched rate n :
  forall i output g,
    i + n = length output ->
    (forall k, (unit_draw g k <=? rate)%float = false) ->
    mutate_loop rate n i output g = Return (output, advance_by n g).
Proof.
  induction n as [|n IH]; intros i output g Hlen Hu; [reflexivity|].
  rewrite mutate_loop_step by lia. rewrite Hu, <- advance_by_succ.
  apply IH; [lia | exact Hu].
Qed.

(** X13: when every draw of the source is above the rate, [mutate]
    returns the genes of its input, having taken one draw for each. *)
Lemma mutate_unchanged_above_rate c rate g :
  (forall k, (unit_draw g k <=? rate)%float = false) ->
  mutate c rate g = Return (c, advance_by (length c) g).
Proof. intros Hu. now apply mutate_loop_untouched. Qed.

(** C7: a draw of exactly 0.0 is a draw of [[0, 1)], and it is not above
    a rate of 0: [mutate] then replaces the gene, here by another key. *)
Theorem mutate_zero_rate_replaces :
  unit_range (constant_source 0 1)
  /\ returned (mutate ["0000"] 0 (constant_source 0 1)) = Return ["0001"].
Proof.
  split; [intros k; split; reflexivity | vm_compute; reflexivity].
Qed.

(** ** The genes of the chromosomes the program holds *)

Lemma forallb_slices {A : Type} (P : A -> bool) (n : nat) (l : list A) :
  forallb P l = true ->
  forallb P (firstn n l) = true /\ forallb P (skipn n l) = true.
Proof.
  intros H. rewrite <- (firstn_skipn n l), forallb_app in H.
  now apply andb_prop in H.
Qed.

Lemma cross_genes c1 c2 rate g c g' :
  forallb valid_code c1 = true -> forallb valid_code c2 = true ->
  cross c1 c2 rate g = Return (c, g') ->
  forallb valid_code c = true.
Proof.
  intros H1 H2. unfold cross. destruct (random g) as [u g1].
  destruct (u <=? rate)%float.
  - destruct (randint 1 _ g1) as [[p g2]| |]; cbn [obind]; try discriminate.
    intros [= <- _]. rewrite forallb_app.
    destruct (forallb_slices valid_code (Z.to_nat p) c1 H1) as [-> _].
    destruct (forallb_slices valid_code (Z.to_nat p) c2 H2) as [_ ->].
    reflexivity.
  - now intros [= <- _].
Qed.

Lemma mutate_genes c rate g :
  exists c' g',
    mutate c rate g = Return (c', g')
    /\ length c' = length c
    /\ forall j, nth_error c' j = nth_error c j
                 \/ exists k, nth_error c' j = Some (code_at k).
Proof. apply mutate_loop_genes. reflexivity. Qed.

Lemma mutate_valid c rate g c' g' :
  forallb valid_code c = true ->
  mutate c rate g = Return (c', g') ->
  forallb valid_code c' = true.
Proof.
  intros Hc E. destruct (mutate_genes c rate g) as (out & g1 & E' & _ & Hg).
  rewrite E in E'. injection E' as <- <-.
  apply forallb_forall. intros x Hx.
  apply In_nth_error in Hx as (j & Hj).
  destruct (Hg j) as [H|(k & H)]; rewrite Hj in H.
  - symmetry in H. apply nth_error_In in H.
    now apply (proj1 (forallb_forall _ _) Hc).
  - injection H as ->. apply code_at_valid.
Qed.

Lemma generate_valid length g c g' :
  generate_chromosome length g = Return (c, g') ->
  forallb valid_code c = true.
Proof.
  intros E. destruct (Z.ltb_spec length 3) as [H|H].
  - rewrite (generate_chromosome_raises length g H) in E. discriminate.
  - destruct (generate_chromosome_returns length g H) as (c0 & E0 & _ & _ & Hv).
    rewrite E in E0. now injection E0 as -> _.
Qed.

Lemma produced_valid c : produced c -> forallb valid_code c = true.
Proof.
  induction 1 as [length g c g' E | c1 c2 rate g c g' _ IH1 _ IH2 E
                 | c0 rate g c g' _ IH E].
  - now apply generate_valid in E.
  - now apply (cross_genes c1 c2 rate g c g').
  - now apply (mutate_valid c0 rate g c g').
Qed.

(** C10: a chromosome that comes from the factory, or from an operator
    applied to chromosomes the program held, has only genes among the 14
    keys of the table, so [decode] finds every gene and returns; the
    factory and the mutation operator write no other gene, the codes
    1110 and 1111 being no keys. *)
Theorem produced_genes_valid :
  (forall c, produced c ->
     forallb valid_code c = true /\ exists out, decode c = Return out)
  /\ (forall length g c g',
        generate_chromosome length g = Return (c, g') ->
        forallb valid_code c = true)
  /\ (forall c rate g,
        exists c' g',
          mutate c rate g = Return (c', g')
          /\ forall j, nth_error c' j = nth_error c j
                       \/ exists x, nth_error c' j = Some x
                                    /\ valid_code x = true)
  /\ valid_code "1110" = false /\ valid_code "1111" = false.
Proof.
  repeat split.
  - now apply produced_valid.
  - apply decode_returns. now apply produced_valid.
  - intros length g c g'. apply generate_valid.
  - intros c rate g.
    destruct (mutate_genes c rate g) as (c' & g' & E & _ & Hg).
    exists c', g'. split; [assumption|]. intros j.
    destruct (Hg j) as [H|(k & H)]; [now left | right].
    exists (code_at k). split; [assumption | apply code_at_valid].
Qed.

Lemma produced_genes_valid_witness :
  forallb valid_code ["1100"; "0001"; "1100"] = true
  /\ exists out, decode ["1100"; "0001"; "1100"] = Return out.
Proof.
  apply (proj1 produced_genes_valid).
  apply (produced_mutate ["1100"; "1100"; "1100"] 0.5
           {| unit_draw := fun k => if Nat.eqb k 1 then 0.25%float else 0.75%float;
              index_draw := fun _ => 1; cursor := 0 |}
           ["1100"; "0001"; "1100"]
           {| unit_draw := fun k => if Nat.eqb k 1 then 0.25%float else 0.75%float;
              index_draw := fun _ => 1; cursor := 4 |}).
  - apply (produced_generate 3 (constant_source 0.5 12) ["1100"; "1100"; "1100"]
             (advance_by 3 (constant_source 0.5 12))).
    reflexivity.
  - reflexivity.
Defined.

(** ** The operators on list objects *)

Lemma deref_new_old (h : Store.heap) l a :
  a < length h -> Store.deref (h ++ [l]) a = Store.deref h a.
Proof. intros Ha. unfold Store.deref. now rewrite app_nth1. Qed.

Lemma deref_new_fresh (h : Store.heap) l : Store.deref (h ++ [l]) (length h) = l.
Proof. unfold Store.deref. now rewrite nth_middle. Qed.

Lemma deref_write_same (h : Store.heap) :
  forall r l, r < length h -> Store.deref (set_nth r l h) r = l.
Proof.
  unfold Store.deref.
  induction h as [|x h IH]; intros [|r] l Hr; cbn in *; try lia; auto.
  apply IH. lia.
Qed.

Lemma deref_write_other (h : Store.heap) :
  forall r l a, a <> r -> Store.deref (set_nth r l h) a = Store.deref h a.
Proof.
  unfold Store.deref.
  induction h as [|x h IH]; intros [|r] l [|a] Ha; cbn in *;
    try congruence; auto.
Qed.

Lemma preserved_new h l : Store.preserved h (h ++ [l]).
Proof.
  split; [rewrite length_app; lia|]. intros a Ha. now apply deref_new_old.
Qed.

Lemma preserved_trans h1 h2 h3 :
  Store.preserved h1 h2 -> Store.preserved h2 h3 -> Store.preserved h1 h3.
Proof.
  intros [L12 D12] [L23 D23]. split; [lia|].
  intros a Ha. rewrite D23 by lia. now apply D12.
Qed.

Lemma store_mutate_loop_step rate n i output h g :
  i < length (Store.deref h output) ->
  Store.mutate_loop rate (S n) i output h g
  = if (unit_draw g (cursor g) <=? rate)%float then
      Store.mutate_loop rate n (S i) output
        (set_nth output
           (set_nth i (code_at (index_draw g (S (cursor g))))
              (Store.deref h output)) h)
        (advance (advance g))
    else Store.mutate_loop rate n (S i) output h (advance g).
Proof.
  intros Hi. cbn [Store.mutate_loop].
  unfold Store.bind at 1. unfold Store.draw, random.
  destruct (unit_draw g (cursor g) <=? rate)%float; [|reflexivity].
  unfold Store.bind at 1. unfold Store.draw_or_raise.
  rewrite sample1_keys.
  unfold Store.bind at 1. unfold Store.try.
  change (py_index [?x] 0) with (Return x).
  unfold Store.bind at 1. unfold Store.read.
  unfold Store.bind at 1. rewrite py_setitem_nat by assumption.
  unfold Store.bind at 1. unfold Store.write. reflexivity.
Qed.

(** The loop of [mutate] writes the object [output] and no other, and
    leaves in it what the loop on list values computes. *)
Lemma store_mutate_loop_spec rate output n :
  forall i h g,
    output < length h ->
    i + n = length (Store.deref h output) ->
    exists h' g',
      Store.mutate_loop rate n i output h g = (Return tt, h', g')
      /\ length h' = length h
      /\ (forall a, a <> output -> Store.deref h' a = Store.deref h a)
      /\ mutate_loop rate n i (Store.deref h output) g
         = Return (Store.deref h' output, g').
Proof.
  induction n as [|n IH]; intros i h g Ho Hlen.
  - exists h, g. repeat split.
  - rewrite store_mutate_loop_step, mutate_loop_step by lia.
    destruct (unit_draw g (cursor g) <=? rate)%float.
    + set (l' := set_nth i _ (Store.deref h output)).
      destruct (IH (S i) (set_nth output l' h) (advance (advance g)))
        as (h' & g' & E & Hl & Hd & Hv).
      * now rewrite length_set_nth.
      * rewrite deref_write_same by assumption. unfold l'.
        rewrite length_set_nth. lia.
      * exists h', g'. split; [assumption|].
        rewrite length_set_nth in Hl. split; [assumption|]. split.
        -- intros a Ha. rewrite Hd by assumption.
           now apply deref_write_other.
        -- rewrite deref_write_same in Hv by assumption. exact Hv.
    + apply IH; [assumption | lia].
Qed.

Lemma store_mutate_spec c rate h g :
  c < length h ->
  exists r h' g',
    Store.mutate c rate h g = (Return r, h', g')
    /\ Store.preserved h h'
    /\ length h <= r < length h'
    /\ mutate (Store.deref h c) rate g = Return (Store.deref h' r, g').
Proof.
  intros Hc. unfold Store.mutate, Store.copy.
  unfold Store.bind, Store.read, Store.new, Store.ret.
  destruct (store_mutate_loop_spec rate (length h)
              (length (Store.deref (h ++ [Store.deref h c]) (length h)))
              0 (h ++ [Store.deref h c]) g)
    as (h' & g' & E & Hl & Hd & Hv);
    [rewrite length_app; cbn; lia | reflexivity |].
  rewrite E. exists (length h), h', g'. split; [reflexivity|].
  rewrite length_app in Hl. cbn [length] in Hl.
  split; [|split; [lia|]].
  - split; [lia|]. intros a Ha. rewrite Hd by lia. now apply deref_new_old.
  - rewrite deref_new_fresh in Hv. exact Hv.
Qed.

Lemma randint_returns_or_raises a b g : randint a b g <> Timeout.
Proof.
  unfold randint. destruct (0 <? b + 1 - a)%Z; [|discriminate].
  destruct (randbelow _ g). discriminate.
Qed.

(** [cross] allocates and writes nothing that was there, and returns a
    new object holding what [cross] on list values computes. *)
Lemma store_cross_spec c1 c2 rate h g :
  c1 < length h -> c2 < length h ->
  exists o h' g',
    Store.cross c1 c2 rate h g = (o, h', g')
    /\ Store.preserved h h'
    /\ match o with
       | Return r =>
           length h <= r < length h'
           /\ cross (Store.deref h c1) (Store.deref h c2) rate g
              = Return (Store.deref h' r, g')
       | Raise e =>
           cross (Store.deref h c1) (Store.deref h c2) rate g = Raise e
       | Timeout => False
       end.
Proof.
  intros H1 H2.
  unfold Store.cross, Store.copy, cross.
  unfold Store.bind, Store.read, Store.new, Store.draw, Store.ret, random.
  rewrite !deref_new_old by assumption.
  destruct (unit_draw g (cursor g) <=? rate)%float.
  - unfold Store.draw_or_raise.
    destruct (randint 1 _ (advance g)) as [[p g2]|e|] eqn:R; cbn [obind].
    + repeat rewrite deref_new_old by (rewrite ?length_app; cbn [length]; lia).
      rewrite !deref_new_fresh.
      eexists _, _, _. split; [reflexivity|]. split.
      * eapply preserved_trans; [apply preserved_new|].
        eapply preserved_trans; [apply preserved_new|].
        eapply preserved_trans; apply preserved_new.
      * rewrite deref_new_fresh, !length_app. cbn [length]. split; [lia|].
        reflexivity.
    + eexists _, _, _. split; [reflexivity|].
      split; [apply preserved_new | reflexivity].
    + now apply randint_returns_or_raises in R.
  - eexists _, _, _. split; [reflexivity|]. split; [apply preserved_new|].
    rewrite deref_new_fresh, length_app. cbn [length]. split; [lia|].
    reflexivity.
Qed.

(** C9: [cross] and [mutate] leave every list object of the store as it
    was, their arguments among them, whatever the source draws; what
    they return is an object that was not in the store before, holding
    the genes that the operator computes on list values. *)
Theorem operators_keep_inputs (c1 c2 : Store.ref) (rate : float)
    (h : Store.heap) (g : source) :
  c1 < length h -> c2 < length h ->
  (exists o h' g',
      Store.cross c1 c2 rate h g = (o, h', g')
      /\ Store.preserved h h'
      /\ Store.deref h' c1 = Store.deref h c1
      /\ Store.deref h' c2 = Store.deref h c2
      /\ match o with
         | Return r =>
             length h <= r < length h'
             /\ cross (Store.deref h c1) (Store.deref h c2) rate g
                = Return (Store.deref h' r, g')
         | Raise e =>
             cross (Store.deref h c1) (Store.deref h c2) rate g = Raise e
         | Timeout => False
         end)
  /\ (exists r h' g',
        Store.mutate c1 rate h g = (Return r, h', g')
        /\ Store.preserved h h'
        /\ Store.deref h' c1 = Store.deref h c1
        /\ length h <= r < length h'
        /\ mutate (Store.deref h c1) rate g = Return (Store.deref h' r, g')).
Proof.
  intros H1 H2. split.
  - destruct (store_cross_spec c1 c2 rate h g H1 H2)
      as (o & h' & g' & E & P & R).
    exists o, h', g'. repeat split; try assumption; try apply P; assumption.
  - destruct (store_mutate_spec c1 rate h g H1) as (r & h' & g' & E & P & R & V).
    exists r, h', g'. repeat split; try assumption; try apply P; try lia.
Qed.

Lemma operators_keep_inputs_witness :
  (exists o h' g',
      Store.cross 0 1 0.75 [["0000"; "0001"; "0010"]; ["1101"; "1100"; "1011"]]
        (constant_source 0.5 1) = (o, h', g')
      /\ Store.deref h' 0 = ["0000"; "0001"; "0010"]
      /\ Store.deref h' 1 = ["1101"; "1100"; "1011"])
  /\ (exists r h' g',
        Store.mutate 0 0.75 [["0000"; "0001"; "0010"]; ["1101"; "1100"; "1011"]]
          (constant_source 0.5 1) = (Return r, h', g')
        /\ Store.deref h' 0 = ["0000"; "0001"; "0010"]
        /\ 2 <= r).
Proof.
  destruct (operators_keep_inputs 0 1 0.75
              [["0000"; "0001"; "0010"]; ["1101"; "1100"; "1011"]]
              (constant_source 0.5 1)) as [C M]; [cbn; lia | cbn; lia |].
  split.
  - destruct C as (o & h' & g' & E & _ & D1 & D2 & _).
    exists o, h', g'. repeat split; assumption.
  - destruct M as (r & h' & g' & E & _ & D & R & _).
    exists r, h', g'. repeat split; [assumption | assumption | apply R].
Defined.

(** ** The fuel of the evaluator is enough on every list *)

Section Fuel.
Variables (op1 op2 : string) (f1 f2 : float -> float -> float)
          (guard : bool).

Lemma obind_comes_back {A B : Type} (m : outcome A) (k : A -> outcome B) :
  m <> Timeout -> (forall a, k a <> Timeout) -> obind m k <> Timeout.
Proof. destruct m; cbn; auto; discriminate. Qed.

Lemma cbind_comes_back {A B : Type} (m : ctl A) (k : A -> ctl B) :
  m <> Stop Timeout -> (forall a, k a <> Stop Timeout) ->
  cbind m k <> Stop Timeout.
Proof.
  destruct m as [a|o]; cbn; [auto|].
  intros H _ [= ->]. now apply H.
Qed.

Lemma lift_comes_back {A : Type} (m : outcome A) :
  m <> Timeout -> lift m <> Stop Timeout.
Proof. destruct m; cbn; congruence. Qed.

Lemma py_index_comes_back (l : list value) i : py_index l i <> Timeout.
Proof.
  unfold py_index. destruct (resolve l i); [|discriminate].
  destruct (nth_error l n); discriminate.
Qed.

Lemma to_float_comes_back v : to_float v <> Timeout.
Proof.
  destruct v; cbn; try discriminate.
  destruct (float_of_string s); discriminate.
Qed.

Lemma operand_comes_back (output : list value) i :
  lift (v <- py_index output i ;; to_float v) <> Stop Timeout.
Proof.
  apply lift_comes_back, obind_comes_back;
    [apply py_index_comes_back | intros; apply to_float_comes_back].
Qed.

Lemma chunk_comes_back output i x :
  chunk op1 op2 f1 f2 guard output i x <> Stop Timeout.
Proof.
  unfold chunk.
  repeat (apply cbind_comes_back; [|intros]);
    repeat match goal with
           | |- (if ?b then _ else _) <> _ => destruct b
           | |- match ?t with Some _ => _ | None => _ end <> _ => destruct t
           | |- cbind _ _ <> _ => apply cbind_comes_back; [|intros]
           | |- lift (obind _ _) <> _ => apply operand_comes_back
           | |- lift _ <> _ => apply lift_comes_back
           | |- py_setitem ?l ?i ?x <> _ =>
               unfold py_setitem; destruct (resolve l i)
           | |- py_delitem ?l ?i <> _ =>
               unfold py_delitem; destruct (resolve l i)
           | |- _ => discriminate
           end.
Qed.

(** A chunk that was replaced took two elements out of the list. *)
Lemma chunk_shrinks output i x output' :
  chunk op1 op2 f1 f2 guard output i x = Go (Some output') ->
  length output' + 2 = length output.
Proof.
  unfold chunk.
  destruct (if eq_str x op1 then _ else _) as [t1|o1]; cbn [cbind];
    [|discriminate].
  destruct (if eq_str x op2 then _ else _) as [[t|]|o2]; cbn [cbind];
    try discriminate.
  unfold py_setitem.
  destruct (resolve output (Z.of_nat i)) as [j|] eqn:Rj; cbn [lift cbind];
    [|discriminate].
  unfold py_delitem.
  destruct (resolve (set_nth j (VFloat t) output) (Z.of_nat i - 1))
    as [j1|] eqn:R1; cbn [lift cbind]; [|discriminate].
  destruct (resolve (del_nth j1 (set_nth j (VFloat t) output)) (Z.of_nat i))
    as [j2|] eqn:R2; cbn [lift cbind]; [|discriminate].
  intros [= <-].
  apply resolve_bound in R1, R2.
  pose proof (length_del_nth j2 _ R2) as L2.
  pose proof (length_del_nth j1 _ R1) as L1.
  rewrite length_set_nth in L1. lia.
Qed.

Lemma for_loop_comes_back output rest :
  forall i, for_loop op1 op2 f1 f2 guard output i rest <> Stop Timeout.
Proof.
  induction rest as [|x rest IH]; intros i; cbn [for_loop]; [discriminate|].
  apply cbind_comes_back; [apply chunk_comes_back|].
  intros [output'|]; [discriminate | apply IH].
Qed.

(** The scan finds the operator that the [while] condition saw. *)
Lemma for_loop_shrinks output rest :
  forall i output',
    existsb (fires op1 op2) rest = true ->
    for_loop op1 op2 f1 f2 guard output i rest = Go output' ->
    length output' + 2 = length output.
Proof.
  induction rest as [|x rest IH]; intros i output' Hf; [discriminate|].
  cbn [for_loop].
  destruct (chunk op1 op2 f1 f2 guard output i x) as [[o|]|o] eqn:C;
    cbn [cbind]; try discriminate.
  - intros [= <-]. now apply chunk_shrinks in C.
  - cbn [existsb] in Hf. destruct (fires op1 op2 x) eqn:Hx.
    + unfold fires in Hx. unfold chunk in C.
      destruct (eq_str x op1) eqn:E1.
      * revert C.
        repeat match goal with
               | |- context [lift ?m] => destruct m; cbn [lift cbind]
               | |- context [if ?b then _ else _] => destruct b; cbn [cbind]
               end; discriminate.
      * cbn [orb] in Hx. rewrite Hx in C. cbn [cbind] in C. revert C.
        repeat match goal with
               | |- context [lift ?m] => destruct m; cbn [lift cbind]
               | |- context [if ?b then _ else _] => destruct b; cbn [cbind]
               end; discriminate.
    + apply IH. exact Hf.
Qed.

Lemma while_loop_comes_back fuel :
  forall output,
    length output < fuel ->
    while_loop op1 op2 f1 f2 guard fuel output <> Stop Timeout.
Proof.
  induction fuel as [|fuel IH]; intros output Hlen; [lia|].
  rewrite while_loop_step.
  destruct (existsb (fires op1 op2) output) eqn:Hf; [|discriminate].
  destruct (for_loop op1 op2 f1 f2 guard output 0 output) as [out|o] eqn:F;
    cbn [cbind].
  - apply IH. apply for_loop_shrinks in F; [lia | assumption].
  - intros [= ->]. now apply for_loop_comes_back in F.
Qed.

End Fuel.

(** [_evaluate] returns or raises on every list: the fuel never runs
    out. *)
Lemma evaluate_comes_back decoded : _evaluate decoded <> Timeout.
Proof.
  unfold _evaluate.
  destruct (mul_tier (S (length decoded)) decoded) as [out1|o1] eqn:M;
    cbn [cbind finish].
  - destruct (add_tier (S (length out1)) out1) as [out2|o2] eqn:A;
      cbn [cbind finish].
    + destruct (length out2 =? 1)%nat.
      * apply obind_comes_back; [apply py_index_comes_back|].
        intros [s|f|]; cbn; try discriminate.
        destruct (float_of_string s); discriminate.
      * apply py_index_comes_back.
    + intros ->. apply while_loop_comes_back in A; [easy | lia].
  - intros ->. apply while_loop_comes_back in M; [easy | lia].
Qed.

(** X6: on every list, well formed or not, the two [while] loops of
    [_evaluate] come to an end: each pass that does not leave the
    function takes two elements out of the list, so the call returns or
    raises. *)
Lemma evaluate_returns_or_raises decoded :
  (exists v, _evaluate decoded = Return v)
  \/ (exists e, _evaluate decoded = Raise e).
Proof.
  pose proof (evaluate_comes_back decoded) as H.
  destruct (_evaluate decoded) as [v|e|]; [eauto | eauto | contradiction].
Qed.

Example sum_run :
  sum Plain [1e16; 1; 1; 1; 1; 1; 1]%float = 1e16%float
  /\ sum Compensated [1e16; 1; 1; 1; 1; 1; 1]%float = 10000000000000006%float
  /\ sum Plain [1; 2; 3.5]%float = sum Compensated [1; 2; 3.5]%float.
Proof. vm_compute. repeat split; reflexivity. Qed.

Example evolve_run (py : summation) :
  returned
    (evolve py {| target := 5; chromosome_length := 3; new_blood_count := 1;
                  preserve_count := 0; crossovers_count := 0 |}
       1 2 [] (constant_source 0.5 5))
  = Return ["5"].
Proof. destruct py; vm_compute; reflexivity. Qed.

(** ** More on decode *)

Lemma decode_unfold c :
  decode c = output <- decode_loop c [] false ;; decode_finish output.
Proof. reflexivity. Qed.

Lemma lookup_keys (d : list (string * string)) k :
  existsb (String.eqb k) (keys d) = true <-> exists v, lookup d k = Some v.
Proof.
  induction d as [|[k' v'] d IH]; cbn.
  - split; [discriminate | intros [v H]; discriminate].
  - rewrite (String.eqb_sym k k'). destruct (k' =? k); cbn; [|exact IH].
    split; eauto.
Qed.

Lemma getitem_missing g :
  valid_code g = false -> getitem GREYCODE g = Raise KeyError.
Proof.
  intros H. unfold getitem.
  destruct (lookup GREYCODE g) as [v|] eqn:E; [|reflexivity].
  assert (V : valid_code g = true) by (apply lookup_keys; eauto).
  congruence.
Qed.

Lemma getitem_found g :
  valid_code g = true -> exists s, getitem GREYCODE g = Return s.
Proof.
  intros H. apply lookup_keys in H as [s H]. exists s.
  unfold getitem. now rewrite H.
Qed.

(** The scan stops with [KeyError] at the first gene that is no key. *)
Lemma decode_loop_invalid genes :
  forall output now_operator,
    forallb valid_code genes = false ->
    decode_loop genes output now_operator = Raise KeyError.
Proof.
  induction genes as [|g genes IH]; intros output now H; [discriminate|].
  cbn [forallb] in H. cbn [decode_loop].
  destruct (valid_code g) eqn:Hg.
  - destruct (getitem_found g Hg) as (s & ->). cbn [obind andb] in *.
    destruct (now && negb (isdigit s)); [now apply IH|].
    destruct (negb now && isdigit s); now apply IH.
  - now rewrite getitem_missing.
Qed.

(** X1: [decode] raises [KeyError] exactly on the chromosomes that hold
    a gene outside the keys of the table; on all others it returns. *)
Theorem decode_key_error (c : chromosome) :
  (forallb valid_code c = false -> decode c = Raise KeyError)
  /\ (forallb valid_code c = true -> exists out, decode c = Return out).
Proof.
  split.
  - intros H. rewrite decode_unfold, decode_loop_invalid by assumption.
    reflexivity.
  - apply decode_returns.
Qed.

Lemma decode_key_error_witness :
  decode ["0001"; "1111"; "0010"] = Raise KeyError
  /\ exists out, decode ["0001"; "1010"; "0010"] = Return out.
Proof.
  split.
  - apply (proj1 (decode_key_error ["0001"; "1111"; "0010"])). reflexivity.
  - apply (proj2 (decode_key_error ["0001"; "1010"; "0010"])). reflexivity.
Defined.

Lemma getitem_lookup g s :
  getitem GREYCODE g = Return s -> lookup GREYCODE g = Some s.
Proof.
  unfold getitem. destruct (lookup GREYCODE g); [congruence | discriminate].
Qed.

Lemma digit_code_symbol g s :
  getitem GREYCODE g = Return s -> digit_code g = isdigit s.
Proof. intros H. unfold digit_code. now rewrite (getitem_lookup g s H). Qed.

Lemma operator_code_symbol g s :
  getitem GREYCODE g = Return s -> operator_code g = negb (isdigit s).
Proof. intros H. unfold operator_code. now rewrite (getitem_lookup g s H). Qed.

Lemma operator_code_getitem g :
  operator_code g = true ->
  exists s, getitem GREYCODE g = Return s /\ isdigit s = false.
Proof.
  unfold operator_code, getitem.
  destruct (lookup GREYCODE g) as [s|]; [|discriminate].
  intros H. exists s. split; [reflexivity|]. now destruct (isdigit s).
Qed.

Lemma digit_code_getitem g :
  digit_code g = true ->
  exists s, getitem GREYCODE g = Return s /\ isdigit s = true.
Proof.
  unfold digit_code, getitem.
  destruct (lookup GREYCODE g) as [s|]; [eauto | discriminate].
Qed.

(** What the last two lines of [decode] make of the output of the scan. *)
Lemma decode_finish_shape out now_operator :
  decode_shape out now_operator ->
  decode_finish out
  = Return (if now_operator then out else removelast out).
Proof.
  intros Hs. destruct now_operator; cbn [decode_shape] in Hs.
  - pose proof (alternating_last out Hs) as Hl.
    destruct out as [|x out]; [discriminate|].
    unfold decode_finish. now rewrite (is_digit_isdigit _ Hl).
  - destruct Hs as [->|(body & op & -> & Hb & Hop)]; [reflexivity|].
    unfold decode_finish.
    destruct (body ++ [op]) as [|x l] eqn:El; [reflexivity|].
    rewrite <- El, last_last, (is_operator_isdigit op Hop). reflexivity.
Qed.

(** One gene keeps the shape of the output. *)
Lemma decode_shape_digit output s :
  is_digit s = true -> decode_shape output false ->
  decode_shape (output ++ [s]) true.
Proof.
  intros Hd [->|(body & op & -> & Hb & Hop)]; cbn [decode_shape].
  - cbn. now rewrite Hd.
  - rewrite <- app_assoc. now apply alternating_snoc.
Qed.

Lemma decode_shape_operator output s :
  is_operator s = true -> decode_shape output true ->
  decode_shape (output ++ [s]) false.
Proof. intros Ho Hs. right. now exists output, s. Qed.

Lemma decode_loop_grows genes :
  forall output now_operator out,
    decode_loop genes output now_operator = Return out ->
    length output <= length out.
Proof.
  induction genes as [|g genes IH]; intros output now out.
  - intros [= <-]. lia.
  - cbn [decode_loop]. destruct (getitem GREYCODE g) as [s| |]; cbn [obind];
      try discriminate.
    destruct (now && negb (isdigit s));
      [|destruct (negb now && isdigit s)]; intros H; apply IH in H;
      rewrite ?length_app in H; cbn [length] in H; lia.
Qed.

Lemma decode_loop_no_digit genes :
  forallb valid_code genes = true ->
  existsb digit_code genes = false ->
  decode_loop genes [] false = Return [].
Proof.
  induction genes as [|g genes IH]; intros Hv Hd; [reflexivity|].
  cbn [forallb existsb] in Hv, Hd.
  apply andb_prop in Hv as [Hg Hv]. apply orb_false_elim in Hd as [Hdg Hd].
  destruct (getitem_found g Hg) as (s & E).
  cbn [decode_loop]. rewrite E. cbn [obind andb negb].
  rewrite <- (digit_code_symbol g s E), Hdg. now apply IH.
Qed.

Lemma decode_loop_some_digit genes :
  forall out,
    existsb digit_code genes = true ->
    decode_loop genes [] false = Return out ->
    1 <= length out.
Proof.
  induction genes as [|g genes IH]; intros out Hd; [discriminate|].
  cbn [decode_loop]. destruct (getitem GREYCODE g) as [s| |] eqn:E;
    cbn [obind andb negb]; try discriminate.
  cbn [existsb] in Hd. rewrite (digit_code_symbol g s E) in Hd.
  destruct (isdigit s); cbn [orb] in Hd.
  - intros H. apply decode_loop_grows in H. cbn in H. lia.
  - now apply IH.
Qed.

(** X2: on a chromosome of valid codes, [decode] gives the empty list
    exactly when no gene stands for a digit. *)
Theorem decode_empty_iff_no_digit (c : chromosome) :
  forallb valid_code c = true ->
  (decode c = Return [] <-> existsb digit_code c = false).
Proof.
  intros Hv. rewrite decode_unfold. split.
  - intros H. destruct (existsb digit_code c) eqn:Hd; [|reflexivity].
    destruct (decode_loop_shape c [] false Hv) as (out & now' & E & Hs);
      [now left|].
    pose proof (decode_loop_some_digit c out Hd E) as Hlen.
    rewrite E in H. cbn [obind] in H.
    rewrite (decode_finish_shape out now' Hs) in H.
    destruct now'; cbn [decode_shape] in Hs.
    + injection H as ->. cbn in Hlen. lia.
    + destruct Hs as [->|(body & op & -> & Hb & _)]; [cbn in Hlen; lia|].
      rewrite removelast_last in H. injection H as ->. discriminate.
  - intros Hd. now rewrite (decode_loop_no_digit c Hv Hd).
Qed.

Lemma decode_empty_iff_no_digit_witness :
  decode ["1010"; "1100"; "1011"] = Return [].
Proof.
  apply (proj2 (decode_empty_iff_no_digit ["1010"; "1100"; "1011"] eq_refl)).
  reflexivity.
Defined.

(** Of two neighbours of one kind the scan takes at most the first. *)
Lemma decode_loop_same_kind d1 d2 rest :
  (digit_code d1 = true /\ digit_code d2 = true)
  \/ (operator_code d1 = true /\ operator_code d2 = true) ->
  forall front output now_operator,
    decode_loop (front ++ d1 :: d2 :: rest) output now_operator
    = decode_loop (front ++ d1 :: rest) output now_operator.
Proof.
  intros K. induction front as [|g front IH]; intros output now.
  - cbn [app decode_loop].
    destruct K as [[K1 K2]|[K1 K2]].
    + destruct (digit_code_getitem d1 K1) as (s1 & -> & D1).
      destruct (digit_code_getitem d2 K2) as (s2 & -> & D2).
      cbn [obind]. rewrite D1, D2. destruct now; reflexivity.
    + destruct (operator_code_getitem d1 K1) as (s1 & -> & D1).
      destruct (operator_code_getitem d2 K2) as (s2 & -> & D2).
      cbn [obind]. rewrite D1, D2. destruct now; reflexivity.
  - cbn [app decode_loop].
    destruct (getitem GREYCODE g) as [s| |]; cbn [obind]; try reflexivity.
    destruct (now && negb (isdigit s)); [apply IH|].
    destruct (negb now && isdigit s); apply IH.
Qed.

(** X3: a gene that follows a gene of its own kind (digit after digit,
    operator after operator) does not change what [decode] gives. *)
Theorem decode_skips_repeated_kind (front rest : chromosome) (d1 d2 : string) :
  (digit_code d1 = true /\ digit_code d2 = true)
  \/ (operator_code d1 = true /\ operator_code d2 = true) ->
  decode (front ++ d1 :: d2 :: rest) = decode (front ++ d1 :: rest).
Proof.
  intros K. rewrite !decode_unfold.
  now rewrite (decode_loop_same_kind d1 d2 rest K).
Qed.

Lemma decode_skips_repeated_kind_witness :
  decode (["0001"] ++ "1010" :: "1100" :: ["0010"])
  = decode (["0001"] ++ "1010" :: ["0010"]).
Proof.
  apply (decode_skips_repeated_kind ["0001"] ["0010"] "1010" "1100").
  right. split; reflexivity.
Defined.

Lemma decode_loop_trailing_operator g c :
  operator_code g = true ->
  forall output now_operator,
    decode_shape output now_operator ->
    (out <- decode_loop (c ++ [g]) output now_operator ;; decode_finish out)
    = (out <- decode_loop c output now_operator ;; decode_finish out).
Proof.
  intros Hg. destruct (operator_code_getitem g Hg) as (s & Eg & Ds).
  induction c as [|g' c IH]; intros output now Hs.
  - cbn [app decode_loop]. rewrite Eg. cbn [obind]. rewrite Ds.
    cbn [negb andb]. rewrite andb_true_r, andb_false_r.
    destruct now; [|reflexivity].
    cbn [decode_loop obind].
    rewrite (decode_finish_shape output true Hs).
    unfold decode_finish.
    destruct (output ++ [s]) as [|x l] eqn:El; [now destruct output|].
    rewrite <- El, last_last, Ds, removelast_last. reflexivity.
  - cbn [app decode_loop].
    destruct (valid_code g') eqn:Hv;
      [|rewrite getitem_missing by assumption; reflexivity].
    destruct (valid_code_symbol g' Hv) as (s' & -> & Hsym). cbn [obind].
    destruct Hsym as [Hd|Ho].
    + rewrite (is_digit_isdigit s' Hd). cbn [negb andb].
      rewrite andb_false_r, andb_true_r. destruct now; cbn [negb].
      * now apply IH.
      * apply IH. now apply decode_shape_digit.
    + rewrite (is_operator_isdigit s' Ho). cbn [negb andb].
      rewrite andb_true_r, andb_false_r. destruct now.
      * apply IH. now apply decode_shape_operator.
      * now apply IH.
Qed.

(** X4: an operator gene at the front or at the end of a chromosome
    does not change what [decode] gives (or raises). *)
Theorem decode_ignores_outer_operator (c : chromosome) (g : string) :
  operator_code g = true ->
  decode (g :: c) = decode c /\ decode (c ++ [g]) = decode c.
Proof.
  intros Hg. split.
  - destruct (operator_code_getitem g Hg) as (s & Eg & Ds).
    rewrite !decode_unfold. cbn [decode_loop]. rewrite Eg. cbn [obind].
    now rewrite Ds.
  - rewrite !decode_unfold. apply decode_loop_trailing_operator; [assumption|].
    now left.
Qed.

Lemma decode_ignores_outer_operator_witness :
  decode ("1100" :: ["0001"; "1010"; "0010"]) = decode ["0001"; "1010"; "0010"]
  /\ decode (["0001"; "1010"; "0010"] ++ ["1100"])
     = decode ["0001"; "1010"; "0010"].
Proof.
  apply (decode_ignores_outer_operator ["0001"; "1010"; "0010"] "1100").
  reflexivity.
Defined.

(** ** The table as a one-to-one reading *)

(** X5: the table reads one-to-one: no two keys stand for the same
    symbol, every digit and every operator has a key, and a key stands
    for nothing else. *)
Theorem greycode_one_to_one :
  (forall g1 g2 s,
      lookup GREYCODE g1 = Some s -> lookup GREYCODE g2 = Some s -> g1 = g2)
  /\ (forall s, is_digit s = true \/ is_operator s = true ->
                exists g, lookup GREYCODE g = Some s)
  /\ (forall g s, lookup GREYCODE g = Some s ->
                  is_digit s = true \/ is_operator s = true).
Proof.
  repeat split.
  - intros g1 g2 s. cbn [lookup GREYCODE].
    repeat match goal with
           | |- context [String.eqb ?k g1] =>
               destruct (String.eqb_spec k g1) as [<-|_]
           end;
      intros H1; try discriminate H1; injection H1 as <-;
      repeat match goal with
             | |- context [String.eqb ?k g2] =>
                 destruct (String.eqb_spec k g2) as [<-|_]
             end;
      intros H2; try discriminate H2; reflexivity.
  - intros s [H|H].
    + revert H. unfold is_digit, float_of_string.
      repeat match goal with
             | |- context [String.eqb s ?k] =>
                 destruct (String.eqb_spec s k) as [->|_]
             end;
        intros H; try discriminate H;
        match goal with
        | |- exists g, _ = Some ?c =>
            first [ exists "0000"; reflexivity | exists "0001"; reflexivity
                  | exists "0010"; reflexivity | exists "0011"; reflexivity
                  | exists "0100"; reflexivity | exists "0101"; reflexivity
                  | exists "0110"; reflexivity | exists "0111"; reflexivity
                  | exists "1000"; reflexivity | exists "1001"; reflexivity ]
        end.
    + revert H. unfold is_operator.
      repeat match goal with
             | |- context [String.eqb s ?k] =>
                 destruct (String.eqb_spec s k) as [->|_]
             end;
        intros H; try discriminate H;
        first [ exists "1010"; reflexivity | exists "1011"; reflexivity
              | exists "1100"; reflexivity | exists "1101"; reflexivity ].
  - intros g s. cbn [lookup GREYCODE].
    repeat match goal with
           | |- context [String.eqb ?k g] =>
               destruct (String.eqb_spec k g) as [<-|_]
           end;
      intros H; try discriminate H; injection H as <-; vm_compute; auto.
Qed.

Lemma greycode_one_to_one_witness :
  (forall g2, lookup GREYCODE g2 = Some "+" -> "1010" = g2)
  /\ exists g, lookup GREYCODE g = Some "7".
Proof.
  split.
  - intros g2. apply (proj1 greycode_one_to_one "1010" g2 "+"). reflexivity.
  - apply (proj1 (proj2 greycode_one_to_one) "7"). left. reflexivity.
Defined.

(** ** The evaluator on a sequence that ends with an operator *)

Lemma py_index_past {A : Type} (l : list A) :
  py_index l (Z.of_nat (length l)) = Raise IndexError.
Proof.
  unfold py_index, resolve.
  destruct (Z.ltb_spec (Z.of_nat (length l)) 0); [lia|].
  destruct (Z.ltb_spec (Z.of_nat (length l)) (Z.of_nat (length l))); [lia|].
  now rewrite andb_false_r.
Qed.

(** An operator with nothing on its right: the read of [output[i+1]]
    raises. *)
Lemma chunk_missing_right op1 op2 f1 f2 guard pre l o a :
  (op2 =? op1) = false ->
  to_float l = Return a ->
  o = op1 \/ o = op2 ->
  chunk op1 op2 f1 f2 guard (pre ++ [l; VStr o]) (S (length pre)) (VStr o)
  = Stop (Raise IndexError).
Proof.
  intros Hd Hl Ho.
  assert (L : py_index (pre ++ [l; VStr o]) (Z.of_nat (S (length pre)) - 1)
              = Return l).
  { replace (Z.of_nat (S (length pre)) - 1)%Z with (Z.of_nat (length pre))
      by lia.
    apply py_index_middle. }
  assert (R : py_index (pre ++ [l; VStr o]) (Z.of_nat (S (length pre)) + 1)
              = Raise IndexError).
  { replace (Z.of_nat (S (length pre)) + 1)%Z
      with (Z.of_nat (length (pre ++ [l; VStr o])))
      by (rewrite length_app; cbn; lia).
    apply py_index_past. }
  unfold chunk. cbn [eq_str]. rewrite L, R. cbn [obind]. rewrite Hl.
  cbn [lift cbind obind].
  destruct Ho as [->| ->].
  - now rewrite String.eqb_refl.
  - rewrite Hd, String.eqb_refl. cbn [cbind]. now destruct guard.
Qed.

Lemma for_loop_missing_right op1 op2 f1 f2 guard pre l o a :
  (op2 =? op1) = false ->
  existsb (fires op1 op2) (pre ++ [l]) = false ->
  to_float l = Return a ->
  o = op1 \/ o = op2 ->
  for_loop op1 op2 f1 f2 guard (pre ++ [l; VStr o]) 0 (pre ++ [l; VStr o])
  = Stop (Raise IndexError).
Proof.
  intros Hd Hq Hl Ho.
  replace (pre ++ [l; VStr o]) with ((pre ++ [l]) ++ [VStr o]) at 2
    by (rewrite <- app_assoc; reflexivity).
  rewrite for_loop_skip by assumption.
  rewrite length_app. cbn [length for_loop].
  replace (length pre + 1 + 0) with (S (length pre)) by lia.
  now rewrite (chunk_missing_right op1 op2 f1 f2 guard pre l o a).
Qed.

Lemma symbol_fires_mul o :
  fires "*" "/" (VStr (symbol o)) = negb (additive o).
Proof. now destruct o. Qed.

Lemma symbol_fires_add o :
  fires "+" "-" (VStr (symbol o)) = additive o.
Proof. now destruct o. Qed.

Lemma mul_tier_trailing opsv opsf :
  Forall2 agrees opsv opsf ->
  forall o pre accv acc fuel,
    existsb (fires "*" "/") pre = false ->
    denotes accv acc ->
    length opsf < fuel ->
    let output := pre ++ accv :: flat opsv ++ [VStr (symbol o)] in
    match spec_multiplicative acc opsf with
    | None => mul_tier (S fuel) output = Stop (Return VNan)
    | Some (t, ts) =>
        if additive o then
          exists tv tsv,
            mul_tier (S fuel) output
            = Go (pre ++ tv :: flat tsv ++ [VStr (symbol o)])
            /\ denotes tv t /\ Forall2 agrees tsv ts
            /\ forallb additive (map fst ts) = true
        else mul_tier (S fuel) output = Stop (Raise IndexError)
    end.
Proof.
  induction 1 as [|[s dv] [b d] opsv opsf [Ho Hd] F IH];
    intros o pre accv acc fuel Hpre Hacc Hfuel output; unfold output.
  - cbn [spec_multiplicative]. change (flat []) with (@nil value).
    cbn [app]. unfold mul_tier. rewrite while_loop_step.
    assert (E : existsb (fires "*" "/") (pre ++ [accv; VStr (symbol o)])
                = negb (additive o)).
    { change [accv; VStr (symbol o)] with ([accv] ++ [VStr (symbol o)]).
      rewrite app_assoc, existsb_app, (quiet_operand pre accv acc)
        by assumption.
      cbn [existsb orb]. now rewrite orb_false_r, symbol_fires_mul. }
    rewrite E. destruct (additive o) eqn:Ha; cbn [negb].
    + exists accv, []. repeat split; auto.
    + rewrite (for_loop_missing_right "*" "/" _ _ _ pre accv (symbol o) acc);
        [reflexivity | reflexivity | now apply (quiet_operand pre accv acc)
        | now apply denotes_to_float |].
      destruct o; try discriminate; auto.
  - cbn in Ho, Hd. subst s. cbn [length] in Hfuel.
    rewrite flat_cons. cbn [spec_multiplicative app].
    destruct (additive b) eqn:Hb.
    + specialize (IH o (pre ++ [accv; VStr (symbol b)]) dv d fuel
                    (quiet_additive pre accv acc b Hpre Hacc Hb) Hd).
      cbn zeta in IH. rewrite <- app_assoc in IH. cbn [app] in IH.
      destruct (spec_multiplicative d opsf) as [[t ts]|]; [|apply IH; lia].
      destruct (additive o); [|apply IH; lia].
      destruct IH as (tv & tsv & E & Ht & Fts & Hadd); [lia|].
      exists accv, ((symbol b, tv) :: tsv). repeat split; auto.
      * rewrite flat_cons, E, <- app_assoc. reflexivity.
      * constructor; [split; auto | assumption].
      * cbn [map fst forallb]. now rewrite Hb.
    + destruct fuel as [|fuel]; [lia|].
      destruct b; try discriminate; cbn [symbol divides_by_zero apply_op].
      * rewrite (mul_tier_product (S fuel) pre accv acc dv d) by assumption.
        apply (IH o pre (VFloat (acc * d)) (acc * d)%float fuel);
          [assumption | reflexivity | lia].
      * rewrite (mul_tier_quotient (S fuel) pre accv acc dv d) by assumption.
        destruct (d =? 0)%float; [reflexivity|].
        apply (IH o pre (VFloat (acc / d)) (acc / d)%float fuel);
          [assumption | reflexivity | lia].
Qed.

Lemma add_tier_sum fuel accv acc dv d rest :
  denotes accv acc -> denotes dv d ->
  add_tier (S fuel) (accv :: VStr "+" :: dv :: rest)
  = add_tier fuel (VFloat (acc + d) :: rest).
Proof.
  intros Hacc Hd. unfold add_tier.
  change (accv :: VStr "+" :: dv :: rest)
    with ([] ++ accv :: VStr "+" :: dv :: rest).
  rewrite while_loop_step.
  rewrite (existsb_fires_window "+" "-" [] accv "+" dv) by reflexivity.
  rewrite (for_loop_first "+" "-" _ _ _ [] accv "+" dv)
    by (cbn [app existsb]; now rewrite (denotes_quiet_tier "+" "-" accv acc)).
  rewrite (chunk_op1 "+" "-" _ _ _ eq_refl [] accv dv _ acc d)
    by now apply denotes_to_float.
  reflexivity.
Qed.

Lemma add_tier_difference fuel accv acc dv d rest :
  denotes accv acc -> denotes dv d ->
  add_tier (S fuel) (accv :: VStr "-" :: dv :: rest)
  = add_tier fuel (VFloat (acc - d) :: rest).
Proof.
  intros Hacc Hd. unfold add_tier.
  change (accv :: VStr "-" :: dv :: rest)
    with ([] ++ accv :: VStr "-" :: dv :: rest).
  rewrite while_loop_step.
  rewrite (existsb_fires_window "+" "-" [] accv "-" dv) by reflexivity.
  rewrite (for_loop_first "+" "-" _ _ _ [] accv "-" dv)
    by (cbn [app existsb]; now rewrite (denotes_quiet_tier "+" "-" accv acc)).
  rewrite (chunk_op2 "+" "-" _ _ _ eq_refl [] accv dv _ acc d)
    by now apply denotes_to_float.
  reflexivity.
Qed.

Lemma add_tier_trailing tsv tsf :
  Forall2 agrees tsv tsf ->
  forallb additive (map fst tsf) = true ->
  forall o accv acc fuel,
    additive o = true ->
    denotes accv acc ->
    length tsf < fuel ->
    add_tier (S fuel) (accv :: flat tsv ++ [VStr (symbol o)])
    = Stop (Raise IndexError).
Proof.
  induction 1 as [|[s dv] [b d] tsv tsf [Ho Hd] F IH];
    intros Hadd o accv acc fuel Ha Hacc Hfuel.
  - change (flat []) with (@nil value). cbn [app].
    unfold add_tier. rewrite while_loop_step.
    cbn [existsb]. rewrite symbol_fires_add, Ha, orb_true_r. cbn [orb].
    change [accv; VStr (symbol o)] with ([] ++ [accv; VStr (symbol o)]).
    rewrite (for_loop_missing_right "+" "-" _ _ _ [] accv (symbol o) acc);
      [reflexivity | reflexivity
      | cbn [app existsb]; now rewrite (denotes_quiet_tier "+" "-" accv acc)
      | now apply denotes_to_float |].
    destruct o; try discriminate; auto.
  - cbn in Ho, Hd. subst s. cbn [length] in Hfuel.
    cbn [map fst forallb] in Hadd. apply andb_prop in Hadd as [Hb Hadd].
    destruct fuel as [|fuel]; [lia|].
    rewrite flat_cons. cbn [app].
    destruct b; try discriminate; cbn [symbol].
    + rewrite (add_tier_sum (S fuel) accv acc dv d) by assumption.
      apply (IH Hadd o (VFloat (acc + d)) (acc + d)%float fuel);
        [assumption | reflexivity | lia].
    + rewrite (add_tier_difference (S fuel) accv acc dv d) by assumption.
      apply (IH Hadd o (VFloat (acc - d)) (acc - d)%float fuel);
        [assumption | reflexivity | lia].
Qed.

Lemma is_operator_symbol op :
  is_operator op = true -> exists o, op = symbol o.
Proof.
  unfold is_operator.
  destruct (String.eqb_spec op "+") as [->|_]; [now exists Add|].
  destruct (String.eqb_spec op "-") as [->|_]; [now exists Sub|].
  destruct (String.eqb_spec op "*") as [->|_]; [now exists Mul|].
  destruct (String.eqb_spec op "/") as [->|_]; [now exists Div|].
  discriminate.
Qed.

(** X7: a well-formed sequence with one more operator at its end cannot
    be evaluated: [_evaluate] raises [IndexError] when it reads the
    operand that is not there, unless a division by zero before it has
    already returned [math.nan]. *)
Theorem evaluate_trailing_operator (toks : list string) (op : string) :
  alternating toks = true ->
  is_operator op = true ->
  exists first ops,
    parse toks = Some (first, ops)
    /\ _evaluate (tokens (toks ++ [op]))
       = match spec_evaluate first ops with
         | Some _ => Raise IndexError
         | None => Return VNan
         end.
Proof.
  intros Hw Hop.
  destruct (alternating_parse toks Hw) as (first & ops & P).
  exists first, ops. split; [assumption|].
  destruct (is_operator_symbol op Hop) as (o & ->).
  destruct toks as [|d rest]; [discriminate|]. cbn [parse] in P.
  destruct (float_of_string d) as [f|] eqn:Hd; [|discriminate].
  destruct (operations rest) as [ops'|] eqn:Hr; [|discriminate].
  injection P as -> ->.
  destruct (operations_flat _ _ Hr) as (opsv & E & F).
  unfold tokens. rewrite map_app. cbn [map app]. rewrite E.
  pose proof (Forall2_length F) as Hlen.
  pose proof (length_flat opsv) as Hflat.
  unfold _evaluate, spec_evaluate.
  pose proof (mul_tier_trailing opsv ops F o [] (VStr d) first
                (length (VStr d :: flat opsv ++ [VStr (symbol o)]))
                eq_refl Hd) as M.
  cbn zeta in M. cbn [app] in M.
  destruct (spec_multiplicative first ops) as [[t ts]|].
  - destruct (additive o) eqn:Ha.
    + destruct M as (tv & tsv & -> & Ht & Fts & Hadd);
        [cbn [length]; rewrite length_app; lia|].
      cbn [cbind].
      pose proof (Forall2_length Fts) as Hlen'.
      pose proof (length_flat tsv) as Hflat'.
      rewrite (add_tier_trailing tsv ts Fts Hadd o tv t
                 (length (tv :: flat tsv ++ [VStr (symbol o)])) Ha Ht);
        [reflexivity | cbn [length]; rewrite length_app; lia].
    + rewrite M; [reflexivity | cbn [length]; rewrite length_app; lia].
  - rewrite M; [reflexivity | cbn [length]; rewrite length_app; lia].
Qed.

Lemma evaluate_trailing_operator_witness :
  _evaluate (tokens (["2"; "+"; "3"] ++ ["*"])) = Raise IndexError
  /\ _evaluate (tokens (["2"; "/"; "0"] ++ ["+"])) = Return VNan.
Proof.
  split.
  - destruct (evaluate_trailing_operator ["2"; "+"; "3"] "*" eq_refl eq_refl)
      as (first & ops & P & E).
    rewrite E. vm_compute in P. injection P as <- <-. reflexivity.
  - destruct (evaluate_trailing_operator ["2"; "/"; "0"] "+" eq_refl eq_refl)
      as (first & ops & P & E).
    rewrite E. vm_compute in P. injection P as <- <-. reflexivity.
Defined.

(** ** More on roulette *)

Lemma roulette_loop_member (old_pool : pool) :
  forall selection spinner c,
    roulette_loop selection spinner old_pool = Some c ->
    exists f, In (c, f) old_pool.
Proof.
  induction old_pool as [|[c0 f0] rest IH]; intros selection spinner c;
    [discriminate|].
  cbn [roulette_loop].
  destruct (selection <=? spinner + f0)%float.
  - intros [= <-]. exists f0. now left.
  - intros H. apply IH in H as (f & H). exists f. now right.
Qed.

Lemma roulette_unfold py old_pool g :
  roulette py old_pool g
  = (roulette_loop (fst (uniform 0 (sum py (map snd old_pool)) g)) 0 old_pool,
     advance g).
Proof. reflexivity. Qed.

(** X8: [roulette] takes one draw from the source; on the empty pool it
    returns [None], and a chromosome that it returns is the chromosome
    of an entry of the pool. *)
Theorem roulette_returns_member (py : summation) (old_pool : pool)
    (g : source) :
  snd (roulette py old_pool g) = advance g
  /\ fst (roulette py [] g) = None
  /\ forall c, fst (roulette py old_pool g) = Some c ->
               exists f, In (c, f) old_pool.
Proof.
  rewrite !roulette_unfold. cbn [fst snd]. repeat split.
  intros c H. now apply roulette_loop_member in H.
Qed.

Lemma roulette_returns_member_witness :
  exists f, In (["0001"], f) [(["0000"], 1%float); (["0001"], 2%float)].
Proof.
  apply (proj2 (proj2 (roulette_returns_member Compensated
                         [(["0000"], 1%float); (["0001"], 2%float)]
                         (constant_source 0.5 0)))).
  reflexivity.
Defined.

(** A float that differs from itself is the NaN of the specification. *)
Lemma compare_self x :
  x <> S754_nan -> SFcompare x x = Some Eq.
Proof.
  destruct x as [s|s| |s m e]; cbn; intros H; try congruence.
  - now destruct s.
  - destruct s; now rewrite Z.compare_refl, Pos.compare_cont_refl.
Qed.

Lemma nan_shape f : is_nan f = true -> Prim2SF f = S754_nan.
Proof.
  unfold is_nan. rewrite eqb_spec. unfold SFeqb. intros H.
  destruct (Prim2SF f) as [s|s| |s m e] eqn:E; [| |reflexivity|];
    rewrite compare_self in H by discriminate; discriminate.
Qed.

Lemma shape_nan f : Prim2SF f = S754_nan -> is_nan f = true.
Proof. intros H. unfold is_nan. now rewrite eqb_spec, H. Qed.

Lemma add_nan_l x y : is_nan x = true -> is_nan (x + y) = true.
Proof.
  intros H. apply shape_nan. now rewrite add_spec, (nan_shape x H).
Qed.

Lemma add_nan_r x y : is_nan y = true -> is_nan (x + y) = true.
Proof.
  intros H. apply shape_nan. rewrite add_spec, (nan_shape y H).
  now destruct (Prim2SF x).
Qed.

Lemma sub_nan_l x y : is_nan x = true -> is_nan (x - y) = true.
Proof.
  intros H. apply shape_nan. now rewrite sub_spec, (nan_shape x H).
Qed.

Lemma mul_nan_l x y : is_nan x = true -> is_nan (x * y) = true.
Proof.
  intros H. apply shape_nan. now rewrite mul_spec, (nan_shape x H).
Qed.

Lemma leb_nan_l x y : is_nan x = true -> (x <=? y)%float = false.
Proof. intros H. now rewrite leb_spec, (nan_shape x H). Qed.

Lemma fold_add_nan fs :
  forall acc, is_nan acc = true ->
              is_nan (fold_left PrimFloat.add fs acc) = true.
Proof.
  induction fs as [|f fs IH]; intros acc H; [exact H|].
  cbn [fold_left]. apply IH. now apply add_nan_l.
Qed.

Lemma fold_add_some_nan fs :
  forall acc, (exists f, In f fs /\ is_nan f = true) ->
              is_nan (fold_left PrimFloat.add fs acc) = true.
Proof.
  induction fs as [|f0 fs IH]; intros acc (f & Hin & Hf); [contradiction|].
  cbn [fold_left]. destruct Hin as [->|Hin].
  - apply fold_add_nan. now apply add_nan_r.
  - apply IH. eauto.
Qed.

(** Once the total of the compensated loop is a NaN it stays one, and
    so is what the loop ends with. *)
Lemma compensate_nan acc x :
  is_nan (fst acc) = true -> is_nan (fst (compensate acc x)) = true.
Proof.
  destruct acc as [f_result c]. cbn [fst compensate]. intros H.
  now apply add_nan_l.
Qed.

Lemma compensate_nan_in acc x :
  is_nan x = true -> is_nan (fst (compensate acc x)) = true.
Proof.
  destruct acc as [f_result c]. cbn [fst compensate]. intros H.
  now apply add_nan_r.
Qed.

Lemma fold_compensate_nan fs :
  forall acc, is_nan (fst acc) = true ->
              is_nan (fst (fold_left compensate fs acc)) = true.
Proof.
  induction fs as [|f fs IH]; intros acc H; [exact H|].
  cbn [fold_left]. apply IH. now apply compensate_nan.
Qed.

Lemma fold_compensate_some_nan fs :
  forall acc, (exists f, In f fs /\ is_nan f = true) ->
              is_nan (fst (fold_left compensate fs acc)) = true.
Proof.
  induction fs as [|f0 fs IH]; intros acc (f & Hin & Hf); [contradiction|].
  cbn [fold_left]. destruct Hin as [->|Hin].
  - apply fold_compensate_nan. now apply compensate_nan_in.
  - apply IH. eauto.
Qed.

Lemma compensated_end_nan acc :
  is_nan (fst acc) = true -> is_nan (compensated_end acc) = true.
Proof.
  destruct acc as [f_result c]. cbn [fst compensated_end]. intros H.
  destruct (negb (c =? 0)%float && is_finite c); [now apply add_nan_l | exact H].
Qed.

Lemma sum_nan py fs :
  (exists f, In f fs /\ is_nan f = true) -> is_nan (sum py fs) = true.
Proof.
  intros H. destruct py; cbn [sum].
  - now apply fold_add_some_nan.
  - destruct fs as [|x rest]; [now destruct H as (f & [] & _)|].
    apply compensated_end_nan.
    destruct H as (f & [->|Hin] & Hf).
    + apply fold_compensate_nan. cbn [fst]. now apply add_nan_r.
    + apply fold_compensate_some_nan. eauto.
Qed.

Lemma roulette_loop_nan (old_pool : pool) :
  forall selection spinner,
    is_nan selection = true ->
    roulette_loop selection spinner old_pool = None.
Proof.
  induction old_pool as [|[c f] rest IH]; intros selection spinner H;
    [reflexivity|].
  cbn [roulette_loop]. rewrite leb_nan_l by assumption. now apply IH.
Qed.

(** X9: when a fitness of the pool is a NaN, the sum and with it the
    draw are NaNs, no running total compares as reaching the draw, and
    [roulette] returns [None]. *)
Theorem roulette_nan_fitness (py : summation) (old_pool : pool)
    (g : source) :
  (exists f, In f (map snd old_pool) /\ is_nan f = true) ->
  is_nan (sum py (map snd old_pool)) = true
  /\ is_nan (fst (uniform 0 (sum py (map snd old_pool)) g)) = true
  /\ fst (roulette py old_pool g) = None.
Proof.
  intros H. pose proof (sum_nan py _ H) as Hs.
  assert (Hd : is_nan (fst (uniform 0 (sum py (map snd old_pool)) g)) = true).
  { unfold uniform, random. cbn [fst].
    apply add_nan_r, mul_nan_l, sub_nan_l, Hs. }
  repeat split; try assumption.
  rewrite roulette_unfold. cbn [fst]. now apply roulette_loop_nan.
Qed.

Lemma roulette_nan_fitness_witness :
  fst (roulette Compensated [(["0000"], 1%float); (["0001"], nan)]
         (constant_source 0.5 0))
  = None.
Proof.
  apply (roulette_nan_fitness Compensated
           [(["0000"], 1%float); (["0001"], nan)] (constant_source 0.5 0)).
  exists nan. split; [right; left; reflexivity | reflexivity].
Defined.

(** ** More on cross *)

Lemma cross_cuts c1 c2 rate g :
  (unit_draw g (cursor g) <=? rate)%float = true ->
  2 <= Nat.min (length c1) (length c2) ->
  exists p,
    1 <= p <= Nat.min (length c1) (length c2) - 1
    /\ cross c1 c2 rate g
       = Return (firstn p c1 ++ skipn p c2, advance (advance g)).
Proof.
  intros Hu H2.
  set (m := Nat.min (length c1) (length c2)) in *.
  set (k := index_draw (advance g) (cursor (advance g)) mod (m - 1)).
  assert (Hk : k < m - 1) by (apply Nat.mod_upper_bound; lia).
  exists (S k). split; [lia|].
  unfold cross, random. rewrite Hu, length_combine. fold m.
  rewrite randint_from_one by lia. cbn [obind].
  replace (Z.to_nat (Z.of_nat m - 1)) with (m - 1) by lia.
  fold k. replace (Z.to_nat (1 + Z.of_nat k)) with (S k) by lia.
  reflexivity.
Qed.

Lemma cross_too_short c1 c2 rate g :
  (unit_draw g (cursor g) <=? rate)%float = true ->
  Nat.min (length c1) (length c2) < 2 ->
  cross c1 c2 rate g = Raise ValueError.
Proof.
  intros Hu H2. unfold cross, random. rewrite Hu, length_combine.
  unfold randint.
  destruct (Z.ltb_spec 0
              (Z.of_nat (Nat.min (length c1) (length c2)) - 1 + 1 - 1));
    [lia | reflexivity].
Qed.

(** X10: when the draw is at or below the rate, [cross] cuts both
    parents at one point between 1 and the shorter length minus 1, and
    the child is as long as the second parent; when the shorter parent
    has fewer than two genes there is no such point and [cross] raises
    [ValueError]. *)
Theorem cross_any_lengths (c1 c2 : chromosome) (rate : float) (g : source) :
  (unit_draw g (cursor g) <=? rate)%float = true ->
  (2 <= Nat.min (length c1) (length c2) ->
   exists p,
     1 <= p <= Nat.min (length c1) (length c2) - 1
     /\ cross c1 c2 rate g
        = Return (firstn p c1 ++ skipn p c2, advance (advance g))
     /\ length (firstn p c1 ++ skipn p c2) = length c2)
  /\ (Nat.min (length c1) (length c2) < 2 ->
      cross c1 c2 rate g = Raise ValueError).
Proof.
  intros Hu. split.
  - intros H2. destruct (cross_cuts c1 c2 rate g Hu H2) as (p & Hp & E).
    exists p. repeat split; try assumption; try lia.
    rewrite length_app, length_firstn, length_skipn. lia.
  - now apply cross_too_short.
Qed.

Lemma cross_any_lengths_witness :
  (exists p,
      1 <= p <= Nat.min 2 4 - 1
      /\ cross ["0000"; "0001"] ["1101"; "1100"; "1011"; "1010"] 0.75
           (constant_source 0.5 1)
         = Return (firstn p ["0000"; "0001"]
                   ++ skipn p ["1101"; "1100"; "1011"; "1010"],
                   advance (advance (constant_source 0.5 1)))
      /\ length (firstn p ["0000"; "0001"]
                 ++ skipn p ["1101"; "1100"; "1011"; "1010"]) = 4)
  /\ cross ["0000"] ["1101"; "1100"] 0.75 (constant_source 0.5 1)
     = Raise ValueError.
Proof.
  split.
  - apply (proj1 (cross_any_lengths ["0000"; "0001"]
                    ["1101"; "1100"; "1011"; "1010"] 0.75
                    (constant_source 0.5 1) eq_refl)).
    cbn. lia.
  - apply (proj2 (cross_any_lengths ["0000"] ["1101"; "1100"] 0.75
                    (constant_source 0.5 1) eq_refl)).
    cbn. lia.
Defined.

(** X11: a chromosome of at least two genes crossed with itself comes
    back with its own genes, at any rate and for every draw. *)
Theorem cross_with_itself (c : chromosome) (rate : float) (g : source) :
  2 <= length c -> returned (cross c c rate g) = Return c.
Proof.
  intros H2.
  destruct (unit_draw g (cursor g) <=? rate)%float eqn:Hu.
  - destruct (cross_cuts c c rate g Hu) as (p & _ & ->);
      [rewrite Nat.min_id; lia|].
    cbn. now rewrite firstn_skipn.
  - unfold cross, random. rewrite Hu. reflexivity.
Qed.

Lemma cross_with_itself_witness :
  returned (cross ["0000"; "1010"; "0010"] ["0000"; "1010"; "0010"] 0.75
              (constant_source 0.5 1))
  = Return ["0000"; "1010"; "0010"].
Proof.
  apply (cross_with_itself ["0000"; "1010"; "0010"] 0.75
           (constant_source 0.5 1)).
  cbn. lia.
Defined.

(** ** More on mutate *)

Lemma firstn_set_nth {A : Type} (l : list A) :
  forall i x, i < length l -> firstn (S i) (set_nth i x l) = firstn i l ++ [x].
Proof.
  induction l as [|h l IH]; intros [|i] x Hi; cbn in *; try lia;
    try reflexivity.
  f_equal. apply IH. lia.
Qed.

(** With every draw at or below the rate, each pass writes the key that
    the next index draw picks. *)
Lemma mutate_loop_all rate n :
  forall i output g,
    i + n = length output ->
    (forall k, (unit_draw g k <=? rate)%float = true) ->
    mutate_loop rate n i output g
    = Return (firstn i output
              ++ map (fun j => code_at (index_draw g (cursor g + 2 * j + 1)))
                     (seq 0 n),
              advance_by (2 * n) g).
Proof.
  induction n as [|n IH]; intros i output g Hlen Hu.
  - assert (i = length output) as -> by lia.
    cbn [mutate_loop seq map Nat.mul]. now rewrite app_nil_r, firstn_all.
  - rewrite mutate_loop_step by lia. rewrite Hu.
    rewrite IH; [|rewrite length_set_nth; lia | exact Hu].
    rewrite firstn_set_nth by lia.
    rewrite <- app_assoc. cbn [seq map app].
    rewrite <- seq_shift, map_map.
    replace (2 * S n) with (S (S (2 * n))) by lia.
    rewrite <- !advance_by_succ.
    do 3 f_equal. f_equal.
    + do 2 f_equal. lia.
    + apply map_ext. intros j. cbn [advance cursor index_draw].
      do 2 f_equal. lia.
Qed.

(** X12: at a rate of 1.0 every draw of [[0, 1)] replaces its gene:
    whatever the input holds, gene [i] of the result is the key picked
    by the index draw that follows the [i]-th rate draw, the result is
    as long as the input and holds valid codes only. *)
Theorem mutate_rate_one (c : chromosome) (g : source) :
  unit_range g ->
  exists c',
    mutate c 1 g = Return (c', advance_by (2 * length c) g)
    /\ length c' = length c
    /\ (forall i, i < length c ->
          nth_error c' i
          = Some (code_at (index_draw g (cursor g + 2 * i + 1))))
    /\ forallb valid_code c' = true.
Proof.
  intros Hu. unfold mutate.
  rewrite (mutate_loop_all 1 (length c) 0 c g eq_refl)
    by (intros k; apply ltb_leb, Hu).
  cbn [firstn app]. eexists. split; [reflexivity|]. repeat split.
  - now rewrite length_map, length_seq.
  - intros i Hi. rewrite nth_error_map, nth_error_seq.
    destruct (Nat.ltb_spec i (length c)); [reflexivity | lia].
  - apply forallb_forall. intros x Hx. apply in_map_iff in Hx as (j & <- & _).
    apply code_at_valid.
Qed.

Lemma mutate_rate_one_witness :
  exists c',
    mutate ["1111"; "zz"] 1 (constant_source 0.5 3)
    = Return (c', advance_by (2 * 2) (constant_source 0.5 3))
    /\ length c' = 2
    /\ (forall i, i < 2 ->
          nth_error c' i
          = Some (code_at (index_draw (constant_source 0.5 3)
                             (cursor (constant_source 0.5 3) + 2 * i + 1))))
    /\ forallb valid_code c' = true.
Proof.
  apply (mutate_rate_one ["1111"; "zz"] (constant_source 0.5 3)).
  intros k. split; reflexivity.
Defined.

Lemma mutate_unchanged_above_rate_witness :
  mutate ["0000"; "1111"] 0.25 (constant_source 0.5 1)
  = Return (["0000"; "1111"], advance_by 2 (constant_source 0.5 1)).
Proof.
  apply (mutate_unchanged_above_rate ["0000"; "1111"] 0.25
           (constant_source 0.5 1)).
  intros k. reflexivity.
Defined.

(** ** Scoring a candidate *)

Lemma decode_valid_shape c :
  forallb valid_code c = true ->
  exists out, decode c = Return out /\ (out = [] \/ alternating out = true).
Proof.
  intros Hv.
  destruct (decode_loop_shape c [] false Hv) as (out & now' & E & Hs);
    [now left|].
  destruct (decode_trim out now' Hs) as (out' & T & W).
  exists out'. split; [|exact W]. unfold decode. rewrite E. exact T.
Qed.

Lemma fitness_well_formed toks target :
  alternating toks = true ->
  fitness (tokens toks) target = Return VNan
  \/ exists v, _evaluate (tokens toks) = Return (VFloat v)
               /\ fitness (tokens toks) target
                  = Return (VFloat (abs (target - v))).
Proof.
  intros H. destruct (alternating_parse toks H) as (first & ops & P).
  rewrite fitness_of_evaluate, (evaluate_parsed toks first ops P).
  destruct (spec_evaluate first ops) as [v|]; cbn [result_value obind];
    eauto.
Qed.

Lemma score_valid target c :
  forallb valid_code c = true ->
  score target c = Return None
  \/ exists f, score target c = Return (Some (c, f)) /\ member_ok target (c, f).
Proof.
  intros Hv. destruct (decode_valid_shape c Hv) as (out & E & [->|Ha]).
  - left. unfold score. now rewrite E.
  - unfold score. rewrite E. cbn [obind].
    destruct out as [|t ts]; [discriminate|].
    destruct (fitness_well_formed (t :: ts) target Ha) as [F|(v & _ & F)].
    + left. now rewrite F.
    + right. exists (abs (target - v)). rewrite F. split; [reflexivity|].
      split; [exact Hv|]. exists (t :: ts). auto.
Qed.

(** X14: on a chromosome of valid codes the scoring steps of the loop
    (decode, drop an empty decoding, [fitness], drop [math.nan]) raise
    nothing: the candidate is dropped, or it is kept with the fitness of
    its non-empty, alternating decoding, which is [abs (target - v)] for
    the value [v] of that decoding. *)
Theorem scoring_never_raises (target : float) (c : chromosome) :
  forallb valid_code c = true ->
  score target c = Return None
  \/ exists dc v,
       decode c = Return dc /\ alternating dc = true
       /\ _evaluate (tokens dc) = Return (VFloat v)
       /\ score target c = Return (Some (c, abs (target - v))).
Proof.
  intros Hv. destruct (decode_valid_shape c Hv) as (out & E & [->|Ha]).
  - left. unfold score. now rewrite E.
  - destruct (fitness_well_formed out target Ha) as [F|(v & Ev & F)].
    + left. unfold score. rewrite E. cbn [obind].
      destruct out; [discriminate|]. now rewrite F.
    + right. exists out, v. repeat split; try assumption.
      unfold score. rewrite E. cbn [obind].
      destruct out; [discriminate|]. now rewrite F.
Qed.

Lemma scoring_never_raises_witness :
  score 8 ["0010"; "1100"; "0011"] = Return None
  \/ exists dc v,
       decode ["0010"; "1100"; "0011"] = Return dc /\ alternating dc = true
       /\ _evaluate (tokens dc) = Return (VFloat v)
       /\ score 8 ["0010"; "1100"; "0011"]
          = Return (Some (["0010"; "1100"; "0011"], abs (8 - v))).
Proof.
  apply (scoring_never_raises 8 ["0010"; "1100"; "0011"]). reflexivity.
Defined.

(** ** The generational loop *)

Lemma append_member_ok target new_pool m :
  Forall (member_ok target) new_pool ->
  (m = None \/ exists x, m = Some x /\ member_ok target x) ->
  Forall (member_ok target) (append_member new_pool m).
Proof.
  intros Hp [->|(x & -> & Hx)]; [exact Hp|].
  cbn [append_member]. apply Forall_app. split; [exact Hp | now constructor].
Qed.

Lemma length_append_member new_pool m :
  length new_pool <= length (append_member new_pool m) <= S (length new_pool).
Proof.
  destruct m; cbn [append_member]; rewrite ?length_app; cbn [length]; lia.
Qed.

Lemma score_member target c :
  forallb valid_code c = true ->
  exists m, score target c = Return m
            /\ (m = None \/ exists x, m = Some x /\ member_ok target x).
Proof.
  intros Hv. destruct (score_valid target c Hv) as [E|(f & E & Hok)].
  - exists None. auto.
  - exists (Some (c, f)). split; [assumption|]. right. eauto.
Qed.

Lemma roulette_some_member py old_pool g c g' :
  roulette py old_pool g = (Some c, g') -> exists f, In (c, f) old_pool.
Proof.
  rewrite roulette_unfold. intros [= H _].
  now apply roulette_loop_member in H.
Qed.

Lemma pool_member_valid target (old_pool : pool) c f :
  Forall (member_ok target) old_pool -> In (c, f) old_pool ->
  forallb valid_code c = true.
Proof.
  intros Hp Hin. rewrite Forall_forall in Hp. now destruct (Hp _ Hin).
Qed.

Section GenerationFacts.
Variable py : summation.
Variable s : settings.
Local Abbreviation ok := (member_ok (target s)).

Lemma new_blood_ok fuel :
  forall new_pool g pool' g',
    new_blood s fuel new_pool g = Return (pool', g') ->
    Forall ok new_pool ->
    length new_pool <= new_blood_count s ->
    Forall ok pool' /\ length pool' = new_blood_count s.
Proof.
  induction fuel as [|fuel IH]; intros new_pool g pool' g'; [discriminate|].
  cbn [new_blood].
  destruct (Nat.ltb_spec (length new_pool) (new_blood_count s)) as [Hlt|Hge].
  - destruct (generate_chromosome (chromosome_length s) g) as [[c g1]| |] eqn:G;
      cbn [obind]; try discriminate.
    destruct (score_member (target s) c (generate_valid _ _ _ _ G))
      as (m & -> & Hm).
    cbn [obind]. intros H Hp _.
    pose proof (length_append_member new_pool m).
    apply (IH _ _ _ _ H); [now apply append_member_ok | lia].
  - intros [= <- _] Hp Hle. split; [assumption | lia].
Qed.

Lemma crossovers_ok fuel old_pool :
  Forall ok old_pool ->
  forall new_pool g pool' g',
    crossovers py s fuel old_pool new_pool g = Return (pool', g') ->
    Forall ok new_pool ->
    length new_pool <= new_blood_count s + crossovers_count s ->
    Forall ok pool'
    /\ length pool' = new_blood_count s + crossovers_count s.
Proof.
  intros Hold.
  induction fuel as [|fuel IH]; intros new_pool g pool' g'; [discriminate|].
  cbn [crossovers].
  destruct (Nat.ltb_spec (length new_pool)
              (new_blood_count s + crossovers_count s)) as [Hlt|Hge].
  - destruct (roulette py old_pool g) as [[c1|] g1] eqn:R1;
      destruct (roulette py old_pool g1) as [[c2|] g2] eqn:R2;
      try discriminate.
    destruct (roulette_some_member _ _ _ _ _ R1) as (f1 & In1).
    destruct (roulette_some_member _ _ _ _ _ R2) as (f2 & In2).
    destruct (cross c1 c2 cross_rate g2) as [[crossed g3]| |] eqn:C;
      cbn [obind]; try discriminate.
    assert (Hv : forallb valid_code crossed = true).
    { apply (cross_genes c1 c2 cross_rate g2 crossed g3);
        eauto using pool_member_valid. }
    destruct (score_member (target s) crossed Hv) as (m & -> & Hm).
    cbn [obind]. intros H Hp _.
    pose proof (length_append_member new_pool m).
    apply (IH _ _ _ _ H); [now apply append_member_ok | lia].
  - intros [= <- _] Hp Hle. split; [assumption | lia].
Qed.

Lemma survivors_ok fuel old_pool :
  Forall ok old_pool ->
  forall new_pool g pool' g',
    survivors py s fuel old_pool new_pool g = Return (pool', g') ->
    Forall ok new_pool ->
    length new_pool
    <= new_blood_count s + crossovers_count s + preserve_count s ->
    Forall ok pool'
    /\ length pool'
       = new_blood_count s + crossovers_count s + preserve_count s.
Proof.
  intros Hold.
  induction fuel as [|fuel IH]; intros new_pool g pool' g'; [discriminate|].
  cbn [survivors].
  destruct (Nat.ltb_spec (length new_pool)
              (new_blood_count s + crossovers_count s + preserve_count s))
    as [Hlt|Hge].
  - destruct (roulette py old_pool g) as [[c|] g1] eqn:R; try discriminate.
    destruct (roulette_some_member _ _ _ _ _ R) as (f & Hin).
    destruct (mutate c mutate_rate g1) as [[m g2]| |] eqn:M;
      cbn [obind]; try discriminate.
    assert (Hv : forallb valid_code m = true).
    { apply (mutate_valid c mutate_rate g1 m g2); eauto using pool_member_valid. }
    destruct (score_member (target s) m Hv) as (member & -> & Hm).
    cbn [obind]. intros H Hp _.
    pose proof (length_append_member new_pool member).
    apply (IH _ _ _ _ H); [now apply append_member_ok | lia].
  - intros [= <- _] Hp Hle. split; [assumption | lia].
Qed.

Lemma find_answer_member new_pool :
  forall dc,
    find_answer new_pool = Return (Some dc) ->
    exists c f, In (c, f) new_pool /\ (f =? 0)%float = true
                /\ decode c = Return dc.
Proof.
  induction new_pool as [|[c f] rest IH]; intros dc; [discriminate|].
  cbn [find_answer]. destruct (f =? 0)%float eqn:Hf.
  - destruct (decode c) as [out| |] eqn:D; cbn [obind]; try discriminate.
    intros [= <-]. exists c, f. repeat split; [now left | assumption..].
  - intros H. destruct (IH dc H) as (c' & f' & Hin & Hz & D).
    exists c', f'. repeat split; [now right | assumption..].
Qed.

Lemma generation_ok fuel old_pool g answer new_pool g' :
  generation py s fuel old_pool g = Return (answer, new_pool, g') ->
  Forall ok old_pool ->
  Forall ok new_pool
  /\ length new_pool
     = new_blood_count s + crossovers_count s + preserve_count s
  /\ forall dc, answer = Some dc ->
       exists c f, In (c, f) new_pool /\ (f =? 0)%float = true
                   /\ decode c = Return dc.
Proof.
  unfold generation. intros H Hold.
  destruct (new_blood s fuel [] g) as [[p1 g1]| |] eqn:N; cbn [obind] in H;
    try discriminate.
  destruct (new_blood_ok fuel [] g p1 g1 N) as [Hp1 L1];
    [constructor | cbn; lia |].
  set (sel := match old_pool with [] => p1 | _ :: _ => old_pool end) in H.
  assert (Hsel : Forall ok sel) by (unfold sel; now destruct old_pool).
  destruct (crossovers py s fuel sel p1 g1) as [[p2 g2]| |] eqn:C;
    cbn [obind] in H; try discriminate.
  destruct (crossovers_ok fuel sel Hsel p1 g1 p2 g2 C Hp1) as [Hp2 L2];
    [lia|].
  destruct (survivors py s fuel sel p2 g2) as [[p3 g3]| |] eqn:S;
    cbn [obind] in H; try discriminate.
  destruct (survivors_ok fuel sel Hsel p2 g2 p3 g3 S Hp2) as [Hp3 L3];
    [lia|].
  destruct (find_answer p3) as [a| |] eqn:A; cbn [obind] in H;
    try discriminate.
  injection H as <- <- <-. repeat split; try assumption.
  intros dc ->. now apply find_answer_member.
Qed.

Lemma evolve_ok generations fuel :
  forall old_pool g answer g',
    evolve py s generations fuel old_pool g = Return (answer, g') ->
    Forall ok old_pool ->
    exists c f,
      forallb valid_code c = true
      /\ decode c = Return answer
      /\ alternating answer = true
      /\ fitness (tokens answer) (target s) = Return (VFloat f)
      /\ (f =? 0)%float = true.
Proof.
  induction generations as [|n IH]; intros old_pool g answer g';
    [discriminate|].
  cbn [evolve].
  destruct (generation py s fuel old_pool g) as [[[a p] g1]| |] eqn:G;
    cbn [obind]; try discriminate.
  intros H Hold.
  destruct (generation_ok fuel old_pool g a p g1 G Hold) as (Hp & _ & Ha).
  destruct a as [[|t ts]|]; try (now apply (IH _ _ _ _ H)).
  injection H as <- <-.
  destruct (Ha (t :: ts) eq_refl) as (c & f & Hin & Hz & D).
  rewrite Forall_forall in Hp.
  destruct (Hp _ Hin) as (Hv & dc & D' & Halt & F). cbn [fst snd] in *.
  rewrite D in D'. injection D' as <-.
  exists c, f. auto.
Qed.
End GenerationFacts.

(** X15: an answer of the loop is the decoding of a chromosome of valid
    codes; it is a well-formed sequence whose value [v] has a fitness
    [abs (target - v)] equal to zero. *)
Theorem evolve_answer_scores_zero (py : summation) (s : settings)
    (generations fuel : nat)
    (g : source) (answer : list string) (g' : source) :
  evolve py s generations fuel [] g = Return (answer, g') ->
  exists c v,
    forallb valid_code c = true
    /\ decode c = Return answer
    /\ alternating answer = true
    /\ _evaluate (tokens answer) = Return (VFloat v)
    /\ (abs (target s - v) =? 0)%float = true.
Proof.
  intros H.
  destruct (evolve_ok py s generations fuel [] g answer g' H (Forall_nil _))
    as (c & f & Hv & D & Ha & F & Hz).
  destruct (fitness_well_formed answer (target s) Ha) as [N|(v & E & F')].
  - rewrite N in F. discriminate.
  - rewrite F' in F. injection F as <-. exists c, v. auto.
Qed.

Lemma evolve_answer_scores_zero_witness :
  exists c v,
    forallb valid_code c = true
    /\ decode c = Return ["5"]
    /\ alternating ["5"] = true
    /\ _evaluate (tokens ["5"]) = Return (VFloat v)
    /\ (abs (5 - v) =? 0)%float = true.
Proof.
  apply (evolve_answer_scores_zero Compensated
           {| target := 5; chromosome_length := 3; new_blood_count := 1;
              preserve_count := 0; crossovers_count := 0 |}
           1 2 (constant_source 0.5 5) ["5"]
           (advance_by 3 (constant_source 0.5 5))).
  vm_compute. reflexivity.
Defined.

(** X16: whenever a generation that starts from a pool of sound members
    (or from no pool) returns, under either summation, the pool it
    returns has exactly as many members as the three counts ask for,
    each of them a chromosome of valid codes with the fitness of its own
    non-empty, alternating decoding, and an answer it returns is the
    decoding of one of them whose fitness equals zero.  Nothing is said
    of a generation that does not return: one whose [roulette] comes
    back with [None] raises [TypeError]. *)
Theorem generation_pool_sound (py : summation) (s : settings) (fuel : nat)
    (old_pool : pool) (g : source) answer (new_pool : pool) (g' : source) :
  generation py s fuel old_pool g = Return (answer, new_pool, g') ->
  Forall (member_ok (target s)) old_pool ->
  Forall (member_ok (target s)) new_pool
  /\ length new_pool
     = new_blood_count s + crossovers_count s + preserve_count s
  /\ forall dc, answer = Some dc ->
       exists c f, In (c, f) new_pool /\ (f =? 0)%float = true
                   /\ decode c = Return dc.
Proof. apply generation_ok. Qed.

Lemma generation_pool_sound_witness :
  Forall (member_ok 5)
    [(["0101"; "0101"; "0101"], 0%float);
     (["0011"; "0011"; "0011"], 2%float);
     (["0011"; "0011"; "0011"], 2%float)]
  /\ length [(["0101"; "0101"; "0101"], 0%float);
             (["0011"; "0011"; "0011"], 2%float);
             (["0011"; "0011"; "0011"], 2%float)] = 1 + 1 + 1
  /\ forall dc, Some ["5"] = Some dc ->
       exists c f, In (c, f) [(["0101"; "0101"; "0101"], 0%float);
                              (["0011"; "0011"; "0011"], 2%float);
                              (["0011"; "0011"; "0011"], 2%float)]
                   /\ (f =? 0)%float = true /\ decode c = Return dc.
Proof.
  apply (generation_pool_sound Compensated
           {| target := 5; chromosome_length := 3; new_blood_count := 1;
              preserve_count := 1; crossovers_count := 1 |}
           3
           [(["0011"; "0011"; "0011"], 2%float);
            (["0101"; "0101"; "0101"], 0%float)]
           (constant_source 0.5 5) (Some ["5"])
           [(["0101"; "0101"; "0101"], 0%float);
            (["0011"; "0011"; "0011"], 2%float);
            (["0011"; "0011"; "0011"], 2%float)]
           (advance_by 11 (constant_source 0.5 5))).
  - vm_compute. reflexivity.
  - constructor; [|constructor; [|constructor]].
    + split; [reflexivity|]. exists ["3"].
      repeat split; vm_compute; reflexivity.
    + split; [reflexivity|]. exists ["5"].
      repeat split; vm_compute; reflexivity.
Defined.

Lemma new_blood_full s fuel new_pool g :
  new_blood_count s <= length new_pool ->
  new_blood s (S fuel) new_pool g = Return (new_pool, g).
Proof.
  intros H. cbn [new_blood].
  destruct (Nat.ltb_spec (length new_pool) (new_blood_count s));
    [lia | reflexivity].
Qed.

Lemma crossovers_empty_pool py s fuel new_pool g :
  crossovers py s (S fuel) [] new_pool g
  = if (length new_pool <? new_blood_count s + crossovers_count s)%nat
    then Raise TypeError else Return (new_pool, g).
Proof.
  cbn [crossovers].
  destruct (length new_pool <? new_blood_count s + crossovers_count s)%nat;
    [|reflexivity].
  rewrite roulette_unfold. cbn [roulette_loop].
  now destruct (roulette py [] (advance g)).
Qed.

Lemma survivors_empty_pool py s fuel new_pool g :
  survivors py s (S fuel) [] new_pool g
  = if (length new_pool
        <? new_blood_count s + crossovers_count s + preserve_count s)%nat
    then Raise TypeError else Return (new_pool, g).
Proof.
  cbn [survivors].
  destruct (length new_pool
            <? new_blood_count s + crossovers_count s + preserve_count s)%nat;
    [|reflexivity].
  rewrite roulette_unfold. reflexivity.
Qed.

(** X17: with a new-blood count of zero the first generation has no
    pool to select from: when a crossover or a survivor is asked for,
    [roulette] returns [None] and the loop raises [TypeError]; when
    nothing is asked for at all, every generation is empty and the loop
    finds no answer, however long it runs. *)
Theorem evolve_without_new_blood (py : summation) (s : settings)
    (generations fuel : nat)
    (g : source) :
  new_blood_count s = 0 ->
  (0 < crossovers_count s + preserve_count s ->
   evolve py s (S generations) (S fuel) [] g = Raise TypeError)
  /\ (crossovers_count s + preserve_count s = 0 ->
      evolve py s generations fuel [] g = Timeout).
Proof.
  intros Hn. split.
  - intros Hpos. cbn [evolve]. unfold generation.
    rewrite new_blood_full by (cbn; lia). cbn [obind].
    rewrite crossovers_empty_pool. cbn [length]. rewrite Hn. cbn [Nat.add].
    destruct (Nat.ltb_spec 0 (crossovers_count s)); [reflexivity|].
    cbn [obind]. rewrite survivors_empty_pool. cbn [length]. rewrite Hn.
    destruct (Nat.ltb_spec 0 (0 + crossovers_count s + preserve_count s));
      [reflexivity | lia].
  - intros Hz.
    revert g. induction generations as [|n IH]; intros g; [reflexivity|].
    cbn [evolve]. unfold generation.
    destruct fuel as [|fuel]; [reflexivity|].
    rewrite new_blood_full by (cbn; lia). cbn [obind].
    rewrite crossovers_empty_pool. cbn [length].
    destruct (Nat.ltb_spec 0 (new_blood_count s + crossovers_count s));
      [lia|].
    cbn [obind]. rewrite survivors_empty_pool. cbn [length].
    destruct (Nat.ltb_spec 0
                (new_blood_count s + crossovers_count s + preserve_count s));
      [lia|].
    cbn [obind find_answer]. apply IH.
Qed.

Lemma evolve_without_new_blood_witness :
  evolve Compensated
         {| target := 5; chromosome_length := 3; new_blood_count := 0;
            preserve_count := 1; crossovers_count := 0 |}
    1 1 [] (constant_source 0.5 5)
  = Raise TypeError.
Proof.
  apply (proj1 (evolve_without_new_blood Compensated
                  {| target := 5; chromosome_length := 3; new_blood_count := 0;
                     preserve_count := 1; crossovers_count := 0 |}
                  0 0 (constant_source 0.5 5) eq_refl)).
  cbn. lia.
Defined.

Lemma roulette_nan_none (py : summation) (old_pool : pool) (g : source) :
  (exists f, In f (map snd old_pool) /\ is_nan f = true) ->
  roulette py old_pool g = (None, advance g).
Proof.
  intros H. rewrite roulette_unfold. f_equal.
  apply roulette_loop_nan. unfold uniform, random. cbn [fst].
  apply add_nan_r, mul_nan_l, sub_nan_l, sum_nan, H.
Qed.

(** X18: a fitness that is a NaN but not [math.nan] passes the filter of
    the loop (the overflowing product scores one), and once such a
    member is in the selection pool the crossover loop and the survivor
    loop raise [TypeError] at their first pass. *)
Theorem nan_member_stops_selection (py : summation) (s : settings)
    (fuel : nat)
    (old_pool new_pool : pool) (g : source) :
  (exists f, In f (map snd old_pool) /\ is_nan f = true) ->
  (length new_pool < new_blood_count s + crossovers_count s ->
   crossovers py s (S fuel) old_pool new_pool g = Raise TypeError)
  /\ (length new_pool
      < new_blood_count s + crossovers_count s + preserve_count s ->
      survivors py s (S fuel) old_pool new_pool g = Raise TypeError)
  /\ score 5 overflow_chromosome = Return (Some (overflow_chromosome, nan)).
Proof.
  intros Hnan. split; [|split].
  - intros Hlt. cbn [crossovers].
    destruct (Nat.ltb_spec (length new_pool)
                (new_blood_count s + crossovers_count s)); [|lia].
    now rewrite !roulette_nan_none.
  - intros Hlt. cbn [survivors].
    destruct (Nat.ltb_spec (length new_pool)
                (new_blood_count s + crossovers_count s + preserve_count s));
      [|lia].
    now rewrite roulette_nan_none.
  - vm_compute. reflexivity.
Qed.

Lemma nan_member_stops_selection_witness :
  crossovers Compensated script_settings 1 [(overflow_chromosome, nan)] []
    (constant_source 0.5 5)
  = Raise TypeError.
Proof.
  apply (proj1 (nan_member_stops_selection Compensated script_settings 0
                  [(overflow_chromosome, nan)] [] (constant_source 0.5 5)
                  (ex_intro _ nan (conj (or_introl eq_refl) eq_refl)))).
  cbn. lia.
Defined.

(** ** The length of the chromosomes of a pool *)





Section PoolLengths.
Variable py : summation.
Variable s : settings.
Local Abbreviation sized :=
  (fun m : chromosome * float =>
     length (fst m) = Z.to_nat (chromosome_length s)).





End PoolLengths.


